(** * wcam: device registry, poll cycle and resolution store

    A shallow embedding of the coordination layer of the wcam library
    ([src/internal/Manager.cpp], [src/internal/ResolutionsManager.cpp]) and
    of the two DirectShow enumeration back ends
    ([src/internal/wcam_windows.cpp] and [src/wcam_windows.cpp]).

    C++ objects become records, [std::unordered_map] becomes [gmap],
    [std::shared_ptr]/[std::weak_ptr] become addresses into an explicit heap
    of reference-counted cells, exceptions become an [outcome] type, and the
    answers of the hardware (COM calls) are data handed to the functions. *)

From Stdlib Require Import NArith ZArith.
From stdpp Require Import base decidable option list sorting gmap strings fin_maps.

Local Open Scope N_scope.

(** ** Value types *)

(** Modelled from the spec: the Resolution value type ([img::Size]) is
    declared outside the translated sources.  It is an immutable pair
    (width, height) whose derived pixel count is width x height, compared
    for equality component-wise. *)
Record Resolution : Type := mkResolution { width : N; height : N }.

Definition pixels_count (r : Resolution) : N := width r * height r.

#[global] Instance Resolution_eq_dec : EqDecision Resolution.
Proof. solve_decision. Defined.

(** Modelled from the spec: [DeviceId] (DeviceId.hpp and make_device_id.hpp
    are not among the translated sources) is an opaque identity with
    equality and hash only.  The sources build it from a string with
    [make_device_id] and read it back with [as_string]. *)
Record DeviceId : Type := make_device_id { as_string : string }.

#[global] Instance DeviceId_eq_dec : EqDecision DeviceId.
Proof. solve_decision. Defined.

#[global] Instance DeviceId_countable : Countable DeviceId.
Proof.
  refine (inj_countable' as_string make_device_id _).
  intros []; reflexivity.
Defined.

(** Modelled from the spec: [Info] is the snapshot entry {name, DeviceId,
    resolutions}; the sources build it in this order and read [id] and
    [resolutions]. *)
Record Info : Type := mkInfo {
  name : string;
  id : DeviceId;
  resolutions : list Resolution
}.

(** ** Sorting and deduplication of resolution lists (Manager.cpp:40-53) *)

(** The comparison lambda handed to [std::sort]. *)
Definition res_before (res_a res_b : Resolution) : bool :=
  (pixels_count res_b <? pixels_count res_a)
  || ((pixels_count res_a =? pixels_count res_b) && (width res_b <? width res_a)).

Section StdAlgorithms.
Context {A : Type}.

(** [std::sort] only promises a permutation in which no element is
    ordered strictly before one of its predecessors; the order of
    equivalent elements is unspecified.  The executable model is an
    insertion sort; [std_sort_spec] is the contract every lemma on sorted
    lists below is proved from. *)
Fixpoint sort_insert (comp : A → A → bool) (x : A) (l : list A) : list A :=
  match l with
  | [] => [x]
  | y :: l' => if comp y x then y :: sort_insert comp x l' else x :: l
  end.

Fixpoint std_sort (comp : A → A → bool) (l : list A) : list A :=
  match l with
  | [] => []
  | x :: l' => sort_insert comp x (std_sort comp l')
  end.

Definition std_sort_spec (comp : A → A → bool) (l l' : list A) : Prop :=
  l' ≡ₚ l ∧ Sorted (λ a b, comp b a = false) l'.

(** [std::unique] followed by [erase]: of every run of consecutive equal
    elements only the first is kept. *)
Context `{EqDecision A}.

Fixpoint unique_from (x : A) (l : list A) : list A :=
  match l with
  | [] => [x]
  | y :: l' => if decide (x = y) then unique_from x l' else x :: unique_from y l'
  end.

Definition std_unique (l : list A) : list A :=
  match l with
  | [] => []
  | x :: l' => unique_from x l'
  end.
End StdAlgorithms.

(** The body of the loop of [grab_all_infos], on one resolution list. *)
Definition sort_and_deduplicate (rs : list Resolution) : list Resolution :=
  std_unique (std_sort res_before rs).

(** The pair by which [res_before] orders. *)
Definition sort_key (r : Resolution) : N * N := (pixels_count r, width r).

(** [grab_all_infos] proper, on the list handed back by the back end. *)
Definition sort_infos (list_webcams_infos : list Info) : list Info :=
  (λ webcam_info,
     mkInfo (name webcam_info) (id webcam_info)
            (sort_and_deduplicate (resolutions webcam_info)))
  <$> list_webcams_infos.

(** ** Exceptions *)

(** Modelled from the spec: the error kinds {Unplugged, AlreadyInUse,
    Other}, under the names the sources use for the first two. *)
Inductive CaptureError : Type :=
| Error_WebcamUnplugged
| Error_WebcamAlreadyUsedInAnotherApplication
| Error_Unknown (message : string).

(** [HRESULT] is a signed 32-bit code; [FAILED] tests its sign. *)
Definition HRESULT : Type := Z.
Definition S_OK : HRESULT := 0%Z.
Definition S_FALSE : HRESULT := 1%Z.
Definition E_FAIL : HRESULT := (-2147467259)%Z.
(** [0x80040216] as a signed 32-bit value. *)
Definition VFW_E_NOT_FOUND : HRESULT := (-2147220970)%Z.
Definition FAILED (hr : HRESULT) : bool := (hr <? 0)%Z.
Definition SUCCEEDED (hr : HRESULT) : bool := (0 <=? hr)%Z.

(** What a C++ call can throw here: the [std::runtime_error] raised by
    [throw_error] (hence by [THROW_IF_ERR]), or the [CaptureException] that
    [Manager::update] catches. *)
Inductive exception : Type :=
| std_runtime_error (hresult : HRESULT) (code_that_failed : string)
| CaptureException (capture_error : CaptureError).

Inductive outcome (A : Type) : Type :=
| Returns (a : A)
| Throws (e : exception).
Arguments Returns {A} a.
Arguments Throws {A} e.

#[global] Instance outcome_ret : MRet outcome := λ A a, Returns a.

#[global] Instance outcome_bind : MBind outcome := λ A B k o,
  match o with
  | Returns a => k a
  | Throws e => Throws e
  end.

(** The macro [THROW_IF_ERR(exp)]. *)
Definition THROW_IF_ERR (hresult : HRESULT) (exp : string) : outcome unit :=
  if FAILED hresult then Throws (std_runtime_error hresult exp) else Returns tt.

Definition grab_all_infos (impl : outcome (list Info)) : outcome (list Info) :=
  list_webcams_infos ← impl; Returns (sort_infos list_webcams_infos).

(** ** The answers of DirectShow

    The COM objects the enumeration walks through are described by the
    answers they give: the [HRESULT] of each call and the data it hands
    back.  A list stands for an enumerator whose [Next] returns [S_OK]
    once per element. *)

Inductive PIN_DIRECTION : Type := PINDIR_INPUT | PINDIR_OUTPUT.

#[global] Instance PIN_DIRECTION_eq_dec : EqDecision PIN_DIRECTION.
Proof. solve_decision. Defined.

(** One capability of a pin: the result of [GetStreamCaps(i, ...)], whether
    the media type is [FORMAT_VideoInfo], and the header's dimensions once
    cast to [img::Size::DataType]. *)
Record StreamCaps : Type := mkStreamCaps {
  GetStreamCaps : HRESULT;
  formattype_is_VideoInfo : bool;
  biWidth : N;
  biHeight : N
}.

Record IPin : Type := mkPin {
  QueryDirection : PIN_DIRECTION;
  QueryInterface_IAMStreamConfig : HRESULT;
  GetNumberOfCapabilities : HRESULT;
  capabilities : list StreamCaps
}.

Record IBaseFilter : Type := mkBaseFilter {
  EnumPins : HRESULT;
  pins : list IPin
}.

(** A property read answers [Some s] when [IPropertyBag::Read] succeeded
    and [convert_wstr_to_str] turned the value into [s], and [None] when
    it failed with [ERROR_FILE_NOT_FOUND].  A read failing with another
    code has no answer of its own in this record: src/wcam_windows.cpp
    skips the device as for [None], while src/internal/wcam_windows.cpp
    goes on to convert a variant that was never written.  In
    src/wcam_windows.cpp the conversion of a name to the empty string
    runs into [assert(false)] (line 24); what is proved of a device whose
    name matters on both sides takes the name to be read and not empty
    ([has_FriendlyName] below). *)
Record IMoniker : Type := mkMoniker {
  BindToStorage : HRESULT;
  Read_FriendlyName : option string;
  Read_DevicePath : option string;
  VariantClear : HRESULT;
  BindToObject : HRESULT;
  capture_filter : IBaseFilter
}.

(** The read of [FriendlyName] succeeded and gave a name that is not
    empty: the inputs on which the two back ends read the same name and
    [convert_wstr_to_str] stays clear of its assertion. *)
Definition has_FriendlyName (pMoniker : IMoniker) : Prop :=
  ∃ webcam_name, Read_FriendlyName pMoniker = Some webcam_name
                 ∧ webcam_name ≠ EmptyString.

(** [video_input_devices] is [None] when [CreateClassEnumerator] leaves the
    enumerator pointer null (empty or missing category). *)
Record SystemDeviceEnum : Type := mkSystemDeviceEnum {
  CoInitializeEx : HRESULT;
  CoCreateInstance : HRESULT;
  CreateClassEnumerator : HRESULT;
  video_input_devices : option (list IMoniker)
}.

(** No device answers the read of [FriendlyName] with a name that
    converts to the empty string, the case in which the
    [convert_wstr_to_str] of src/wcam_windows.cpp reaches its
    [assert(false)]. *)
Definition no_empty_FriendlyName (env : SystemDeviceEnum) : Prop :=
  Forall (λ pMoniker, Read_FriendlyName pMoniker ≠ Some EmptyString)
         (default [] (video_input_devices env)).

(** The [thread_local] variables of the polling thread: the [Raii] guard of
    [CoInitializeIFN] and the [resolutions_cache] of the enumeration. *)
Record ThreadLocal : Type := mkThreadLocal {
  com_initialized : bool;
  resolutions_cache : gmap string (list Resolution)
}.

Definition fresh_thread : ThreadLocal := mkThreadLocal false ∅.

(** [CoInitializeIFN]: the guard is constructed on the first call that does
    not throw. *)
Definition CoInitializeIFN (env : SystemDeviceEnum) (tl : ThreadLocal)
  : ThreadLocal * outcome unit :=
  if com_initialized tl then (tl, Returns tt)
  else match THROW_IF_ERR (CoInitializeEx env) "CoInitializeEx" with
       | Returns _ => (mkThreadLocal true (resolutions_cache tl), Returns tt)
       | Throws e => (tl, Throws e)
       end.

(** *** src/internal/wcam_windows.cpp *)
Module internal_wcam_windows.

Definition find_webcam_name (pMoniker : IMoniker) : outcome string :=
  THROW_IF_ERR (BindToStorage pMoniker) "BindToStorage";;
  match Read_FriendlyName pMoniker with
  | None => Returns "Unnamed webcam"%string
  | Some res => THROW_IF_ERR (VariantClear pMoniker) "VariantClear";; Returns res
  end.

Definition find_webcam_id (pMoniker : IMoniker) : outcome DeviceId :=
  THROW_IF_ERR (BindToStorage pMoniker) "BindToStorage";;
  match Read_DevicePath pMoniker with
  | None => webcam_name ← find_webcam_name pMoniker; Returns (make_device_id webcam_name)
  | Some res => THROW_IF_ERR (VariantClear pMoniker) "VariantClear";;
                Returns (make_device_id res)
  end.

(** The [for] loop over the capabilities of one pin. *)
Fixpoint for_each_capability (caps : list StreamCaps)
    (available_resolutions : list Resolution) : outcome (list Resolution) :=
  match caps with
  | [] => Returns available_resolutions
  | c :: caps' =>
      THROW_IF_ERR (GetStreamCaps c) "GetStreamCaps";;
      if formattype_is_VideoInfo c
      then for_each_capability caps'
             (available_resolutions ++ [mkResolution (biWidth c) (biHeight c)])
      else for_each_capability caps' available_resolutions
  end.

(** The [while (true)] loop over the pins of the capture filter. *)
Fixpoint while_next_pin (ps : list IPin)
    (available_resolutions : list Resolution) : outcome (list Resolution) :=
  match ps with
  | [] => Returns available_resolutions
  | pPin :: ps' =>
      if decide (QueryDirection pPin = PINDIR_OUTPUT)
      then
        THROW_IF_ERR (QueryInterface_IAMStreamConfig pPin) "QueryInterface";;
        THROW_IF_ERR (GetNumberOfCapabilities pPin) "GetNumberOfCapabilities";;
        available_resolutions' ←
          for_each_capability (capabilities pPin) available_resolutions;
        while_next_pin ps' available_resolutions'
      else while_next_pin ps' available_resolutions
  end.

Definition get_video_parameters (pCaptureFilter : IBaseFilter)
  : outcome (list Resolution) :=
  THROW_IF_ERR (EnumPins pCaptureFilter) "EnumPins";;
  while_next_pin (pins pCaptureFilter) [].

(** The cache lookup and, on a miss, the hardware query that fills it. *)
Definition available_resolutions_of (pMoniker : IMoniker) (webcam_name : string)
    (cache : gmap string (list Resolution))
  : gmap string (list Resolution) * outcome (list Resolution) :=
  match cache !! webcam_name with
  | Some cached => (cache, Returns cached)
  | None =>
      match THROW_IF_ERR (BindToObject pMoniker) "BindToObject";;
            get_video_parameters (capture_filter pMoniker) with
      | Returns available_resolutions =>
          (<[webcam_name := available_resolutions]> cache, Returns available_resolutions)
      | Throws e => (cache, Throws e)
      end
  end.

(** The [while (true)] loop over the monikers.  The cache is thread-local,
    so what was written to it survives an exception. *)
Fixpoint while_next_moniker (monikers : list IMoniker)
    (cache : gmap string (list Resolution)) (infos : list Info)
  : gmap string (list Resolution) * outcome (list Info) :=
  match monikers with
  | [] => (cache, Returns infos)
  | pMoniker :: monikers' =>
      match find_webcam_name pMoniker with
      | Throws e => (cache, Throws e)
      | Returns webcam_name =>
          match available_resolutions_of pMoniker webcam_name cache with
          | (cache', Throws e) => (cache', Throws e)
          | (cache', Returns []) => while_next_moniker monikers' cache' infos
          | (cache', Returns available_resolutions) =>
              match find_webcam_id pMoniker with
              | Throws e => (cache', Throws e)
              | Returns webcam_id =>
                  while_next_moniker monikers' cache'
                    (infos ++ [mkInfo webcam_name webcam_id available_resolutions])
              end
          end
      end
  end.

Definition grab_all_infos_impl (env : SystemDeviceEnum) (tl : ThreadLocal)
  : ThreadLocal * outcome (list Info) :=
  match CoInitializeIFN env tl with
  | (tl', Throws e) => (tl', Throws e)
  | (tl', Returns _) =>
      match THROW_IF_ERR (CoCreateInstance env) "CoCreateInstance";;
            THROW_IF_ERR (CreateClassEnumerator env) "CreateClassEnumerator" with
      | Throws e => (tl', Throws e)
      | Returns _ =>
          match video_input_devices env with
          | None => (tl', Returns [])
          | Some monikers =>
              let '(cache, result) :=
                while_next_moniker monikers (resolutions_cache tl') [] in
              (mkThreadLocal (com_initialized tl') cache, result)
          end
      end
  end.

End internal_wcam_windows.

(** *** src/wcam_windows.cpp

    The earlier back end tests every [HRESULT] and skips what failed; only
    [CoInitializeIFN] can throw.  Its [UniqueId], built from the friendly
    name, plays the part of [DeviceId].  Its [convert_wstr_to_str] asserts
    that the converted name is not empty; the functions below are the
    code on inputs that pass the assertion ([no_empty_FriendlyName]) and
    the code compiled with [NDEBUG] on the others. *)
Module wcam_windows.

Fixpoint for_each_capability (caps : list StreamCaps)
    (available_resolutions : list Resolution) : list Resolution :=
  match caps with
  | [] => available_resolutions
  | c :: caps' =>
      if SUCCEEDED (GetStreamCaps c) && formattype_is_VideoInfo c
      then for_each_capability caps'
             (available_resolutions ++ [mkResolution (biWidth c) (biHeight c)])
      else for_each_capability caps' available_resolutions
  end.

Fixpoint while_next_pin (ps : list IPin)
    (available_resolutions : list Resolution) : list Resolution :=
  match ps with
  | [] => available_resolutions
  | pPin :: ps' =>
      if decide (QueryDirection pPin = PINDIR_OUTPUT)
      then
        if SUCCEEDED (QueryInterface_IAMStreamConfig pPin)
           && SUCCEEDED (GetNumberOfCapabilities pPin)
        then while_next_pin ps'
               (for_each_capability (capabilities pPin) available_resolutions)
        else while_next_pin ps' available_resolutions
      else while_next_pin ps' available_resolutions
  end.

Definition get_video_parameters (pCaptureFilter : IBaseFilter) : list Resolution :=
  if SUCCEEDED (EnumPins pCaptureFilter)
  then while_next_pin (pins pCaptureFilter) []
  else [].

Definition available_resolutions_of (pMoniker : IMoniker) (webcam_name : string)
    (cache : gmap string (list Resolution))
  : gmap string (list Resolution) * list Resolution :=
  match cache !! webcam_name with
  | Some cached => (cache, cached)
  | None =>
      let available_resolutions :=
        if SUCCEEDED (BindToObject pMoniker)
        then get_video_parameters (capture_filter pMoniker)
        else [] in
      (<[webcam_name := available_resolutions]> cache, available_resolutions)
  end.

Fixpoint get_devices_info (monikers : list IMoniker)
    (cache : gmap string (list Resolution)) (list_webcam_info : list Info)
  : gmap string (list Resolution) * list Info :=
  match monikers with
  | [] => (cache, list_webcam_info)
  | pMoniker :: monikers' =>
      if FAILED (BindToStorage pMoniker)
      then get_devices_info monikers' cache list_webcam_info
      else
        match Read_FriendlyName pMoniker with
        | None => get_devices_info monikers' cache list_webcam_info
        | Some webcam_name =>
            match available_resolutions_of pMoniker webcam_name cache with
            | (cache', []) => get_devices_info monikers' cache' list_webcam_info
            | (cache', available_resolutions) =>
                get_devices_info monikers' cache'
                  (list_webcam_info
                     ++ [mkInfo webcam_name (make_device_id webcam_name)
                                available_resolutions])
            end
        end
  end.

Definition enumerate_devices (env : SystemDeviceEnum) : HRESULT :=
  if SUCCEEDED (CoCreateInstance env)
  then if decide (CreateClassEnumerator env = S_FALSE)
       then VFW_E_NOT_FOUND
       else CreateClassEnumerator env
  else CoCreateInstance env.

Definition grab_all_infos_impl (env : SystemDeviceEnum) (tl : ThreadLocal)
  : ThreadLocal * outcome (list Info) :=
  match CoInitializeIFN env tl with
  | (tl', Throws e) => (tl', Throws e)
  | (tl', Returns _) =>
      if SUCCEEDED (enumerate_devices env)
      then
        let '(cache, list_webcam_info) :=
          get_devices_info (default [] (video_input_devices env))
                           (resolutions_cache tl') [] in
        (mkThreadLocal (com_initialized tl') cache, Returns list_webcam_info)
      else (tl', Returns [])
  end.

End wcam_windows.

(** ** Capture sessions and shared ownership *)

Local Open Scope nat_scope.

(** Modelled from the spec: the platform capture handle of an active
    session, reduced to the resolution it negotiated. *)
Record Capture : Type := mkCapture { capture_resolution : Resolution }.

(** Modelled from the spec: the state of a capture session, a tagged union
    over not-yet-initialised, active and failed, under the names the
    sources use ([CaptureNotInitYet], [Capture], the error kinds). *)
Inductive MaybeCapture : Type :=
| CaptureNotInitYet
| holds_Capture (capture : Capture)
| holds_CaptureError (error : CaptureError).

Definition holds_alternative_Capture (v : MaybeCapture) : bool :=
  match v with
  | holds_Capture _ => true
  | _ => false
  end.

(** Modelled from the spec: the session object (WebcamRequest.hpp is not
    among the translated sources), read by the sources through [id()] and
    [maybe_capture()]. *)
Record WebcamRequest : Type := mkWebcamRequest {
  request_id : DeviceId;
  maybe_capture : MaybeCapture
}.

(** A [std::shared_ptr<WebcamRequest>] control block: the object and the
    number of owners.  A block leaves the heap when its last owner is
    destroyed, and addresses are never handed out twice, so a
    [std::weak_ptr] is an address whose [lock] succeeds exactly while the
    block is on the heap. *)
Record ControlBlock : Type := mkControlBlock {
  object : WebcamRequest;
  use_count : nat
}.

(** [restarts] is an instrumentation counter: it counts the executions of
    the assignment at Manager.cpp:89 and is read by no function. *)
Record Heap : Type := mkHeap {
  blocks : gmap nat ControlBlock;
  next_address : nat;
  restarts : nat
}.

Definition empty_heap : Heap := mkHeap ∅ 0 0.

Definition lock (h : Heap) (weak_ptr : nat) : option WebcamRequest :=
  object <$> blocks h !! weak_ptr.

Definition make_shared (device : DeviceId) (h : Heap) : nat * Heap :=
  (next_address h,
   mkHeap (<[next_address h := mkControlBlock (mkWebcamRequest device CaptureNotInitYet) 1]>
             (blocks h))
          (S (next_address h)) (restarts h)).

(** Copying an owner. *)
Definition shared_ptr_copy (p : nat) (h : Heap) : Heap :=
  mkHeap (alter (λ b, mkControlBlock (object b) (S (use_count b))) p (blocks h))
         (next_address h) (restarts h).

(** Destroying an owner; the last one destroys the object. *)
Definition shared_ptr_release (p : nat) (h : Heap) : Heap :=
  match blocks h !! p with
  | None => h
  | Some b =>
      if decide (use_count b ≤ 1)
      then mkHeap (delete p (blocks h)) (next_address h) (restarts h)
      else mkHeap (<[p := mkControlBlock (object b) (pred (use_count b))]> (blocks h))
                  (next_address h) (restarts h)
  end.

(** The assignment [request->maybe_capture() = v]. *)
Definition assign_maybe_capture (p : nat) (v : MaybeCapture) (h : Heap) : Heap :=
  mkHeap (alter (λ b, mkControlBlock (mkWebcamRequest (request_id (object b)) v)
                                     (use_count b)) p (blocks h))
         (next_address h) (restarts h).

(** ** Manager (src/internal/Manager.cpp) *)

Record Manager : Type := mkManager {
  _infos : list Info;
  _current_requests : gmap DeviceId nat
}.

Definition new_manager : Manager := mkManager [] ∅.

Definition infos (self : Manager) : list Info := _infos self.

(** The tail of [open_or_get_webcam]: a new request, remembered weakly. *)
Definition create_request (device : DeviceId) (self : Manager) (h : Heap)
  : nat * Manager * Heap :=
  let '(request, h') := make_shared device h in
  (request, mkManager (_infos self) (<[device := request]> (_current_requests self)), h').

(** Returns the [SharedWebcam], an owner of the request at the address. *)
Definition open_or_get_webcam (device : DeviceId) (self : Manager) (h : Heap)
  : nat * Manager * Heap :=
  match _current_requests self !! device with
  | Some it =>
      match lock h it with
      | Some _ => (it, self, shared_ptr_copy it h)
      | None => create_request device self h
      end
  | None => create_request device self h
  end.

Definition request_a_restart_of_the_capture_if_it_exists
    (device : DeviceId) (self : Manager) (h : Heap) : Heap :=
  match _current_requests self !! device with
  | None => h
  | Some weak =>
      match lock h weak with
      | None => h
      | Some _ =>
          let h' := assign_maybe_capture weak CaptureNotInitYet h in
          mkHeap (blocks h') (next_address h') (S (restarts h'))
      end
  end.

(** [std::find_if] on the snapshot. *)
Definition find_info (device : DeviceId) (l : list Info) : option Info :=
  List.find (λ info, bool_decide (id info = device)) l.

Definition default_resolution (self : Manager) (device : DeviceId) : Resolution :=
  match find_info device (_infos self) with
  | None => mkResolution 1 1
  | Some it =>
      match resolutions it with
      | [] => mkResolution 1 1
      | r :: _ => r
      end
  end.

Definition is_plugged_in (self : Manager) (device : DeviceId) : bool :=
  bool_decide (is_Some (find_info device (_infos self))).

(** ** ResolutionsManager (src/internal/ResolutionsManager.cpp) *)

Record ResolutionsManager : Type := mkResolutionsManager {
  _selected_resolutions : gmap DeviceId Resolution
}.

Definition selected_resolution (self : ResolutionsManager) (manager : Manager)
    (device : DeviceId) : Resolution :=
  match _selected_resolutions self !! device with
  | Some r => r
  | None => default_resolution manager device
  end.

(** [manager_unchecked] is [None] while no [Manager] is alive. *)
Definition set_selected_resolution (device : DeviceId) (resolution : Resolution)
    (self : ResolutionsManager) (manager_unchecked : option Manager) (h : Heap)
  : ResolutionsManager * Heap :=
  if bool_decide (_selected_resolutions self !! device = Some resolution)
  then (self, h)
  else
    (mkResolutionsManager (<[device := resolution]> (_selected_resolutions self)),
     match manager_unchecked with
     | Some manager => request_a_restart_of_the_capture_if_it_exists device manager h
     | None => h
     end).

(** ** The poll cycle (Manager::update and Manager::thread_job) *)

(** The loop of [update] over the copy of [_current_requests].  The
    constructor of [Capture] is the parameter [Capture_new]; only a
    [CaptureException] is caught. *)
Fixpoint for_each_request (current_requests : list (DeviceId * nat))
    (Capture_new : DeviceId → Resolution → outcome Capture)
    (resolutions : ResolutionsManager) (self : Manager) (h : Heap)
  : Heap * outcome unit :=
  match current_requests with
  | [] => (h, Returns tt)
  | (_, request_weak_ptr) :: rest =>
      match lock h request_weak_ptr with
      | None => for_each_request rest Capture_new resolutions self h
      | Some request =>
          if negb (is_plugged_in self (request_id request))
          then for_each_request rest Capture_new resolutions self
                 (assign_maybe_capture request_weak_ptr
                    (holds_CaptureError Error_WebcamUnplugged) h)
          else if holds_alternative_Capture (maybe_capture request)
          then for_each_request rest Capture_new resolutions self h
          else
            match Capture_new (request_id request)
                    (selected_resolution resolutions self (request_id request)) with
            | Returns capture =>
                for_each_request rest Capture_new resolutions self
                  (assign_maybe_capture request_weak_ptr (holds_Capture capture) h)
            | Throws (CaptureException capture_error) =>
                for_each_request rest Capture_new resolutions self
                  (assign_maybe_capture request_weak_ptr
                     (holds_CaptureError capture_error) h)
            | Throws e => (h, Throws e)
            end
      end
  end.

(** [impl] is what [grab_all_infos_impl] answered in this cycle. *)
Definition update (impl : outcome (list Info))
    (Capture_new : DeviceId → Resolution → outcome Capture)
    (resolutions : ResolutionsManager) (self : Manager) (h : Heap)
  : Manager * Heap * outcome unit :=
  match grab_all_infos impl with
  | Throws e => (self, h, Throws e)
  | Returns infos =>
      let self' := mkManager infos (_current_requests self) in
      let '(h', result) :=
        for_each_request (map_to_list (_current_requests self'))
          Capture_new resolutions self' h in
      (self', h', result)
  end.

(** The first block of [update] on its own: the enumeration, then the
    replacement of [_infos] under [_infos_mutex].  Between its end and the
    visit of a request by the loop of the second block, callers see the
    new snapshot next to what the requests held before. *)
Definition replace_infos (impl : outcome (list Info)) (self : Manager)
  : Manager * outcome unit :=
  match grab_all_infos impl with
  | Throws e => (self, Throws e)
  | Returns infos => (mkManager infos (_current_requests self), Returns tt)
  end.

(** What the hardware answers during one iteration of the loop. *)
Record PollCycle : Type := mkPollCycle {
  devices : SystemDeviceEnum;
  Capture_new : DeviceId → Resolution → outcome Capture
}.

(** [thread_job] for as many iterations as [cycles] is long, after which
    [_wants_to_stop_thread] is set.  An exception leaving [update] leaves
    the thread function. *)
Fixpoint thread_job
    (grab_all_infos_impl : SystemDeviceEnum → ThreadLocal → ThreadLocal * outcome (list Info))
    (cycles : list PollCycle) (resolutions : ResolutionsManager)
    (tl : ThreadLocal) (self : Manager) (h : Heap)
  : ThreadLocal * Manager * Heap * outcome unit :=
  match cycles with
  | [] => (tl, self, h, Returns tt)
  | cycle :: cycles' =>
      let '(tl', impl) := grab_all_infos_impl (devices cycle) tl in
      match update impl (Capture_new cycle) resolutions self h with
      | (self', h', Returns _) =>
          thread_job grab_all_infos_impl cycles' resolutions tl' self' h'
      | (self', h', Throws e) => (tl', self', h', Throws e)
      end
  end.

(** ** Callers and poller interleaved

    A sequential history of the calls that reach the registry: callers
    acquiring, copying and dropping [SharedWebcam]s and choosing
    resolutions, and the poller running cycles. *)
Record World : Type := mkWorld {
  manager : Manager;
  heap : Heap;
  resolutions_manager : ResolutionsManager
}.

Definition initial_world : World :=
  mkWorld new_manager empty_heap (mkResolutionsManager ∅).

Inductive Call : Type :=
| call_open_or_get_webcam (device : DeviceId)
| call_copy_SharedWebcam (p : nat)
| call_drop_SharedWebcam (p : nat)
| call_request_restart (device : DeviceId)
| call_set_selected_resolution (device : DeviceId) (resolution : Resolution)
| call_update (impl : outcome (list Info))
              (Capture_new : DeviceId → Resolution → outcome Capture).

Definition step (w : World) (c : Call) : World :=
  match c with
  | call_open_or_get_webcam device =>
      let '(_, m, h) := open_or_get_webcam device (manager w) (heap w) in
      mkWorld m h (resolutions_manager w)
  | call_copy_SharedWebcam p =>
      mkWorld (manager w) (shared_ptr_copy p (heap w)) (resolutions_manager w)
  | call_drop_SharedWebcam p =>
      mkWorld (manager w) (shared_ptr_release p (heap w)) (resolutions_manager w)
  | call_request_restart device =>
      mkWorld (manager w)
              (request_a_restart_of_the_capture_if_it_exists device (manager w) (heap w))
              (resolutions_manager w)
  | call_set_selected_resolution device resolution =>
      let '(rm, h) :=
        set_selected_resolution device resolution (resolutions_manager w)
                                (Some (manager w)) (heap w) in
      mkWorld (manager w) h rm
  | call_update impl Capture_new =>
      let '(m, h, _) :=
        update impl Capture_new (resolutions_manager w) (manager w) (heap w) in
      mkWorld m h (resolutions_manager w)
  end.

Definition run (history : list Call) (w : World) : World := foldl step w history.

(** The live sessions of a device: the addresses of the requests on the
    heap that were created for it. *)
Definition live_session (h : Heap) (device : DeviceId) (p : nat) : Prop :=
  ∃ b, blocks h !! p = Some b ∧ request_id (object b) = device.

Definition session_state (h : Heap) (p : nat) : option MaybeCapture :=
  maybe_capture <$> lock h p.

(** The thread-local state after the enumerations of [envs], whatever they
    answered. *)
Definition later_enumerations
    (impl : SystemDeviceEnum → ThreadLocal → ThreadLocal * outcome (list Info))
    (envs : list SystemDeviceEnum) (tl : ThreadLocal) : ThreadLocal :=
  foldl (λ tl env, (impl env tl).1) tl envs.

(** ** Invariants of the registry *)

(** The registry remembers every live request under its own device, and
    every address it remembers was handed out by [make_shared]. *)
Record registry_ok (self : Manager) (h : Heap) : Prop := mkRegistryOk {
  live_below_next : ∀ p b, blocks h !! p = Some b → p < next_address h;
  live_is_owned : ∀ p b, blocks h !! p = Some b → 0 < use_count b;
  live_is_registered : ∀ p b,
    blocks h !! p = Some b → _current_requests self !! request_id (object b) = Some p;
  registered_below_next : ∀ device p,
    _current_requests self !! device = Some p → p < next_address h;
  registered_for_device : ∀ device p b,
    _current_requests self !! device = Some p → blocks h !! p = Some b →
    request_id (object b) = device
}.

(** Two heaps with the same requests and owners, differing at most in what
    the requests hold. *)
Definition same_owners (h h' : Heap) : Prop :=
  next_address h' = next_address h
  ∧ ∀ p, (λ b, (request_id (object b), use_count b)) <$> blocks h' !! p
         = (λ b, (request_id (object b), use_count b)) <$> blocks h !! p.

(** Addresses are not reused: what lives in [h'] below the next address of
    [h] already lived in [h], for the same device. *)
Definition heap_evolves (h h' : Heap) : Prop :=
  next_address h ≤ next_address h'
  ∧ ∀ p b', p < next_address h → blocks h' !! p = Some b' →
      ∃ b, blocks h !! p = Some b ∧ request_id (object b) = request_id (object b').

(** A constructor of [Capture] that throws nothing but [CaptureException]. *)
Definition throws_only_CaptureException
    (Capture_new : DeviceId → Resolution → outcome Capture) : Prop :=
  ∀ device resolution hr code,
    Capture_new device resolution ≠ Throws (std_runtime_error hr code).

(** What one iteration of the loop of [update] leaves in a request when
    the constructor throws nothing but [CaptureException]. *)
Definition polled_state (Capture_new : DeviceId → Resolution → outcome Capture)
    (resolutions : ResolutionsManager) (self : Manager) (request : WebcamRequest)
  : MaybeCapture :=
  if is_plugged_in self (request_id request)
  then match maybe_capture request with
       | holds_Capture capture => holds_Capture capture
       | _ =>
           match Capture_new (request_id request)
                   (selected_resolution resolutions self (request_id request)) with
           | Returns capture => holds_Capture capture
           | Throws (CaptureException capture_error) => holds_CaptureError capture_error
           | Throws (std_runtime_error _ _) => maybe_capture request
           end
       end
  else holds_CaptureError Error_WebcamUnplugged.

Definition poll_block (Capture_new : DeviceId → Resolution → outcome Capture)
    (resolutions : ResolutionsManager) (self : Manager) (b : ControlBlock)
  : ControlBlock :=
  mkControlBlock
    (mkWebcamRequest (request_id (object b))
                     (polled_state Capture_new resolutions self (object b)))
    (use_count b).



(** A live session exists for the device: a [Manager] is alive, it
    remembers a request for the device, and the request is on the heap. *)
Definition live_session_exists (manager_unchecked : option Manager) (h : Heap)
    (device : DeviceId) (p : nat) : Prop :=
  ∃ self, manager_unchecked = Some self
    ∧ _current_requests self !! device = Some p ∧ is_Some (lock h p).

(** ** Predicates of the specification *)

(** [a] is not ordered after [b] by the comparison of [std::sort]. *)
Definition res_not_after (a b : Resolution) : Prop := res_before b a = false.

(** What the specification asks of a reported resolution list: strictly
    descending by pixel count, then by width, and no (pixels, width) pair
    twice. *)
Definition sorted_best_first (rs : list Resolution) : Prop :=
  StronglySorted (λ a b, res_before a b = true) rs.

Definition sorted_and_deduplicated (rs : list Resolution) : Prop :=
  sorted_best_first rs ∧ NoDup (sort_key <$> rs).

Definition has_resolutions (info : Info) : Prop := resolutions info ≠ [].

Definition snapshot_nonempty (self : Manager) : Prop :=
  Forall has_resolutions (_infos self).

(** Every reported entry is the cached list of its name. *)
Definition reported_from_cache (cache : gmap string (list Resolution))
    (l : list Info) : Prop :=
  ∀ info, info ∈ l → cache !! name info = Some (resolutions info).

(** What the cache argument needs of a back end. *)
Definition caching_backend
    (impl : SystemDeviceEnum → ThreadLocal → ThreadLocal * outcome (list Info)) : Prop :=
  ∀ env tl,
    resolutions_cache tl ⊆ resolutions_cache (impl env tl).1
    ∧ ∀ out, (impl env tl).2 = Returns out →
        reported_from_cache (resolutions_cache (impl env tl).1) out.

(** ** Scenarios

    Hardware answers used to run the model on concrete inputs. *)
Module Scenario.

(** A capture filter with one output pin offering [caps]. *)
Definition filter_offering (caps : list Resolution) : IBaseFilter :=
  mkBaseFilter S_OK
    [mkPin PINDIR_OUTPUT S_OK S_OK
       ((λ r, mkStreamCaps S_OK true (width r) (height r)) <$> caps)].

(** A webcam all of whose calls succeed. *)
Definition webcam (friendly_name device_path : string) (caps : list Resolution)
  : IMoniker :=
  mkMoniker S_OK (Some friendly_name) (Some device_path) S_OK S_OK (filter_offering caps).

(** A webcam whose capture filter cannot be bound. *)
Definition webcam_failing_BindToObject (friendly_name device_path : string) : IMoniker :=
  mkMoniker S_OK (Some friendly_name) (Some device_path) S_OK E_FAIL (filter_offering []).

Definition attached (monikers : list IMoniker) : SystemDeviceEnum :=
  mkSystemDeviceEnum S_OK S_OK S_OK (Some monikers).

Definition Cam_A : DeviceId := make_device_id "Cam-A".
Definition Cam_B : DeviceId := make_device_id "Cam-B".

Definition Cam_A_caps : list Resolution :=
  [mkResolution 640 480; mkResolution 1280 720; mkResolution 1280 720].

(** Every capture opens, at the requested resolution. *)
Definition always_opens : DeviceId → Resolution → outcome Capture :=
  λ _ resolution, Returns (mkCapture resolution).

(** A constructor of [Capture] that fails on [broken] with the
    [std::runtime_error] of [THROW_IF_ERR] and opens every other device. *)
Definition opens_except (broken : DeviceId) : DeviceId → Resolution → outcome Capture :=
  λ device resolution,
    if decide (device = broken)
    then Throws (std_runtime_error E_FAIL "BindToObject")
    else Returns (mkCapture resolution).

End Scenario.

(** ** The capture object (src/internal/wcam_windows.cpp) *)

Module CaptureImpl.

(** [_ref_count] is the [LONG] that [InterlockedIncrement] and
    [InterlockedDecrement] act on: a signed 32-bit integer that wraps
    around.  The methods return the new value as a [ULONG]. *)
Definition wrap_LONG (z : Z) : Z := ((z + 2147483648) mod 4294967296 - 2147483648)%Z.
Definition to_ULONG (z : Z) : Z := (z mod 4294967296)%Z.
Definition is_LONG (z : Z) : Prop := (-2147483648 ≤ z < 2147483648)%Z.

(** Each method returns its result and the new [_ref_count]. *)
Definition AddRef (_ref_count : Z) : Z * Z :=
  let incremented := wrap_LONG (_ref_count + 1) in (to_ULONG incremented, incremented).

Definition Release (_ref_count : Z) : Z * Z :=
  let decremented := wrap_LONG (_ref_count - 1) in (to_ULONG decremented, decremented).

(** The event codes [is_disconnected] looks for. *)
Definition EC_ERRORABORT : Z := 3%Z.
Definition EC_DEVICE_LOST : Z := 31%Z.

(** The loop of [is_disconnected] over the queue of [_media_event]:
    [GetEvent] with a zero timeout answers [S_OK] while an event is queued
    and removes it. *)
Fixpoint drain_events (queue : list Z) (disconnected : bool) : bool :=
  match queue with
  | [] => disconnected
  | evCode :: queue' =>
      let disconnected1 :=
        if decide (evCode = EC_DEVICE_LOST) then true else disconnected in
      let disconnected2 :=
        if decide (evCode = EC_ERRORABORT) then true else disconnected1 in
      drain_events queue' disconnected2
  end.

(** Returns the result and the queue left behind. *)
Definition is_disconnected (queue : list Z) : bool * list Z :=
  (drain_events queue false, []).

(** The variant [MaybeImage] held in [_image], over any type of images. *)
Inductive MaybeImage (Image : Type) : Type :=
| holds_Image (image : Image)
| NoNewImageAvailableYet
| holds_image_error (error : CaptureError).
Arguments holds_Image {Image} image.
Arguments NoNewImageAvailableYet {Image}.
Arguments holds_image_error {Image} error.

(** [image()]: returns the result and the new [_image].  [std::move] leaves
    an error alternative in a moved-from state, [moved_from error], about
    which nothing is assumed. *)
Definition image {Image : Type} (moved_from : CaptureError → CaptureError)
    (_image : MaybeImage Image) : MaybeImage Image * MaybeImage Image :=
  match _image with
  | holds_Image i => (holds_Image i, NoNewImageAvailableYet)
  | NoNewImageAvailableYet => (NoNewImageAvailableYet, NoNewImageAvailableYet)
  | holds_image_error e => (holds_image_error e, holds_image_error (moved_from e))
  end.

(** The loop of the constructor that looks for the moniker of the device
    (lines 321-327).  [None] stands for the end of the enumeration without a
    [break]; what [pMoniker] holds then is not modelled. *)
Fixpoint select_moniker (device_id : DeviceId) (monikers : list IMoniker)
  : outcome (option IMoniker) :=
  match monikers with
  | [] => Returns None
  | pMoniker :: monikers' =>
      webcam_id ← internal_wcam_windows.find_webcam_id pMoniker;
      if decide (webcam_id = device_id)
      then Returns (Some pMoniker)
      else select_moniker device_id monikers'
  end.

End CaptureImpl.

(** ** Further predicates *)

(** The devices for which a poll cycle has to construct a [Capture]: a live
    request, a device of the snapshot, no capture held. *)
Definition needs_open (self : Manager) (h : Heap) (device : DeviceId) : Prop :=
  ∃ p b, blocks h !! p = Some b ∧ request_id (object b) = device
    ∧ is_plugged_in self device = true
    ∧ holds_alternative_Capture (maybe_capture (object b)) = false.

Definition is_open_or_get_webcam (c : Call) : bool :=
  match c with
  | call_open_or_get_webcam _ => true
  | _ => false
  end.

(** The answers of [env] with another answer to [CoInitializeEx]. *)
Definition with_CoInitializeEx (hr : HRESULT) (env : SystemDeviceEnum) : SystemDeviceEnum :=
  mkSystemDeviceEnum hr (CoCreateInstance env) (CreateClassEnumerator env)
                     (video_input_devices env).

(** The resolution a capability of a pin stands for. *)
Definition resolution_of_caps (c : StreamCaps) : Resolution :=
  mkResolution (biWidth c) (biHeight c).

(** An entry as the earlier back end reports it: identified by its name. *)
Definition identified_by_name (info : Info) : Info :=
  mkInfo (name info) (make_device_id (name info)) (resolutions info).

(** * Properties *)

(** ** Sorting and deduplication *)

Section SortFacts.
Context {A : Type} (comp : A → A → bool).

Lemma sort_insert_perm x (l : list A) : sort_insert comp x l ≡ₚ x :: l.
Proof.
  induction l as [|y l IH]; simpl; [done|].
  destruct (comp y x); [|done].
  rewrite IH. apply Permutation_swap.
Qed.

Lemma std_sort_perm (l : list A) : std_sort comp l ≡ₚ l.
Proof.
  induction l as [|x l IH]; simpl; [done|].
  by rewrite sort_insert_perm, IH.
Qed.

(** The comparison is asymmetric, as [std::sort] requires. *)
Hypothesis comp_asym : ∀ a b, comp a b = true → comp b a = false.

Lemma sort_insert_sorted x (l : list A) :
  Sorted (λ a b, comp b a = false) l →
  Sorted (λ a b, comp b a = false) (sort_insert comp x l).
Proof.
  induction l as [|y l IH]; simpl; intros Hs.
  - by repeat constructor.
  - destruct (comp y x) eqn:Hyx.
    + apply Sorted_inv in Hs as [Hs Hhd].
      constructor; [by apply IH|].
      destruct l as [|z l]; simpl.
      * constructor. by apply comp_asym.
      * destruct (comp z x); constructor.
        -- by apply HdRel_inv in Hhd.
        -- by apply comp_asym.
    + constructor; [done|]. by constructor.
Qed.

Lemma std_sort_sorted (l : list A) :
  Sorted (λ a b, comp b a = false) (std_sort comp l).
Proof.
  induction l as [|x l IH]; simpl; [constructor|].
  by apply sort_insert_sorted.
Qed.

Lemma std_sort_meets_spec (l : list A) : std_sort_spec comp l (std_sort comp l).
Proof. split; [apply std_sort_perm | apply std_sort_sorted]. Qed.

End SortFacts.

Section UniqueFacts.
Context `{EqDecision A}.

Lemma unique_from_head (x : A) l : ∃ l', unique_from x l = x :: l'.
Proof.
  revert x; induction l as [|y l IH]; intros x; simpl; [by eexists|].
  case_decide; [apply IH | by eexists].
Qed.

Lemma elem_of_unique_from (x : A) l z : z ∈ unique_from x l ↔ z ∈ x :: l.
Proof.
  revert x; induction l as [|y l IH]; intros x; simpl; [done|].
  case_decide as Hxy.
  - subst y. rewrite IH, !elem_of_cons. tauto.
  - rewrite (elem_of_cons (unique_from y l)), IH, !elem_of_cons. tauto.
Qed.

Lemma elem_of_std_unique (l : list A) z : z ∈ std_unique l ↔ z ∈ l.
Proof. destruct l; simpl; [done | apply elem_of_unique_from]. Qed.

Lemma head_std_unique (l : list A) : head (std_unique l) = head l.
Proof.
  destruct l as [|x l]; simpl; [done|].
  by destruct (unique_from_head x l) as [l' ->].
Qed.

(** On a list sorted by a transitive [R] that is antisymmetric on the
    elements satisfying [P], deduplication leaves a list strictly sorted
    by any [S] that holds between [R]-related distinct elements. *)
Context (R S : relation A) (P : A → Prop).
Hypothesis R_trans : Transitive R.
Hypothesis R_antisym : ∀ a b, P a → P b → R a b → R b a → a = b.
Hypothesis R_strict : ∀ a b, P a → P b → R a b → a ≠ b → S a b.

Lemma unique_from_strictly_sorted (x : A) l :
  Forall P (x :: l) → StronglySorted R (x :: l) →
  StronglySorted S (unique_from x l).
Proof.
  revert x; induction l as [|y l IH]; intros x HP Hs; simpl.
  - by repeat constructor.
  - apply StronglySorted_inv in Hs as [Hs Hx].
    apply Forall_cons in HP as [HPx HP].
    apply Forall_cons in Hx as [Hxy Hx].
    case_decide as Hne.
    + subst y. apply IH; [done|].
      apply StronglySorted_inv in Hs as [Hs _]. by constructor.
    + constructor; [by apply IH|].
      apply Forall_forall; intros z Hz.
      apply elem_of_unique_from in Hz.
      assert (R x z) as Hxz.
      { apply elem_of_cons in Hz as [->|Hz]; [done|].
        by eapply Forall_forall in Hx. }
      assert (P z) as HPz by (by eapply Forall_forall in HP).
      apply R_strict; [done..|]. intros ->.
      apply Hne, R_antisym; [done| |done|].
      * by apply Forall_cons in HP as [? _].
      * apply StronglySorted_inv in Hs as [_ Hy].
        apply elem_of_cons in Hz as [->|Hz]; [done|].
        by eapply Forall_forall in Hy.
Qed.

Lemma std_unique_strictly_sorted (l : list A) :
  Forall P l → StronglySorted R l → StronglySorted S (std_unique l).
Proof.
  destruct l; simpl; [constructor | apply unique_from_strictly_sorted].
Qed.

End UniqueFacts.

(** *** The order on resolutions *)

Lemma res_before_spec a b :
  res_before a b = true ↔
  (pixels_count b < pixels_count a
   ∨ (pixels_count a = pixels_count b ∧ width b < width a))%N.
Proof.
  unfold res_before.
  rewrite orb_true_iff, andb_true_iff, !N.ltb_lt, N.eqb_eq. tauto.
Qed.

Lemma res_not_after_spec a b :
  res_not_after a b ↔
  (pixels_count b < pixels_count a
   ∨ (pixels_count a = pixels_count b ∧ width b ≤ width a))%N.
Proof.
  unfold res_not_after. rewrite <-not_true_iff_false, res_before_spec. lia.
Qed.

Lemma res_before_asym a b : res_before a b = true → res_before b a = false.
Proof.
  intros H%res_before_spec. apply not_true_iff_false.
  rewrite res_before_spec. lia.
Qed.

Lemma res_not_after_trans : Transitive res_not_after.
Proof. intros a b c. rewrite !res_not_after_spec. lia. Qed.

#[local] Existing Instance res_not_after_trans.

Lemma res_not_after_antisym a b :
  width a ≠ 0%N → width b ≠ 0%N →
  res_not_after a b → res_not_after b a → a = b.
Proof.
  rewrite !res_not_after_spec. intros Ha Hb H1 H2.
  assert (pixels_count a = pixels_count b ∧ width a = width b) as [Hp Hw] by lia.
  destruct a as [wa ha], b as [wb hb]; unfold pixels_count in *; simpl in *.
  subst wb. f_equal. by apply N.mul_cancel_l in Hp.
Qed.

Lemma res_not_after_strict a b : res_not_after a b → a ≠ b →
  width a ≠ 0%N → width b ≠ 0%N → res_before a b = true.
Proof.
  intros Hab Hne Ha Hb.
  destruct (res_before a b) eqn:Hba; [done|].
  destruct Hne. by apply res_not_after_antisym.
Qed.

Lemma res_before_sort_key a b : res_before a b = true → sort_key a ≠ sort_key b.
Proof.
  intros H%res_before_spec [=Hp Hw]. lia.
Qed.

Lemma sorted_best_first_NoDup rs : sorted_best_first rs → NoDup (sort_key <$> rs).
Proof.
  induction 1 as [|a l Hs IH Hall]; simpl; constructor; [|done].
  intros (b & Hk & Hb)%list_elem_of_fmap.
  eapply Forall_forall in Hall; [|done].
  by apply res_before_sort_key in Hall.
Qed.

Lemma elem_of_sort_and_deduplicate rs r : r ∈ sort_and_deduplicate rs ↔ r ∈ rs.
Proof.
  unfold sort_and_deduplicate.
  by rewrite elem_of_std_unique, (std_sort_perm res_before rs).
Qed.

Lemma std_sort_res_before_sorted rs :
  StronglySorted res_not_after (std_sort res_before rs).
Proof.
  apply Sorted_StronglySorted; [apply _|].
  apply (std_sort_sorted res_before res_before_asym).
Qed.

(** The scenario of the specification: the duplicate is removed and the
    largest resolution comes first. *)
Example sort_and_deduplicate_Cam_A :
  sort_and_deduplicate
    [mkResolution 640 480; mkResolution 1280 720; mkResolution 1280 720]
  = [mkResolution 1280 720; mkResolution 640 480].
Proof. reflexivity. Qed.

(** C3 (as amended): for every resolution list whose widths are all
    non-zero, the list that a poll cycle stores in [Info.resolutions] is
    strictly sorted by pixel count descending, then width descending, has no
    two entries with the same (pixels, width) pair, and has exactly the
    entries of the reported list. *)
Theorem C3_resolutions_sorted_and_deduplicated (rs : list Resolution) :
  Forall (λ r, width r ≠ 0%N) rs →
  sorted_and_deduplicated (sort_and_deduplicate rs)
  ∧ ∀ r, r ∈ sort_and_deduplicate rs ↔ r ∈ rs.
Proof.
  intros Hw.
  assert (sorted_best_first (sort_and_deduplicate rs)) as Hs.
  { unfold sorted_best_first, sort_and_deduplicate.
    apply std_unique_strictly_sorted
      with (R := res_not_after) (P := λ r, width r ≠ 0%N).
    - apply res_not_after_antisym.
    - intros a b Ha Hb Hab Hne. by apply res_not_after_strict.
    - by rewrite (std_sort_perm res_before rs).
    - apply std_sort_res_before_sorted. }
  split; [split; [done | by apply sorted_best_first_NoDup]|].
  apply elem_of_sort_and_deduplicate.
Qed.

Lemma C3_witness :
  let rs := [mkResolution 640 480; mkResolution 1280 720; mkResolution 1280 720] in
  Forall (λ r, width r ≠ 0%N) rs
  ∧ sorted_and_deduplicated (sort_and_deduplicate rs)
  ∧ ∀ r, r ∈ sort_and_deduplicate rs ↔ r ∈ rs.
Proof.
  assert (Forall (λ r, width r ≠ 0%N)
            [mkResolution 640 480; mkResolution 1280 720; mkResolution 1280 720])
    as Hw by (repeat constructor; discriminate).
  split; [exact Hw|].
  exact (C3_resolutions_sorted_and_deduplicated _ Hw).
Defined.

(** C3 as stated fails for zero widths: two resolutions of width 0 have the
    same pixel count and width whatever their heights, the comparison
    orders neither before the other, and they are not equal, so both are
    kept. *)
Lemma C3_counterexample :
  ¬ sorted_and_deduplicated
      (sort_and_deduplicate [mkResolution 0 5; mkResolution 0 7]).
Proof.
  intros [_ Hnd]. vm_compute in Hnd.
  apply NoDup_cons in Hnd as [Hin _]. apply Hin. left.
Qed.

(** The same holds whatever order [std::sort] leaves equivalent elements
    in. *)
Lemma zero_width_duplicates_any_sort l' :
  std_sort_spec res_before [mkResolution 0 5; mkResolution 0 7] l' →
  ¬ sorted_and_deduplicated (std_unique l').
Proof.
  intros [Hp _].
  assert (l' = [mkResolution 0 5; mkResolution 0 7]
          ∨ l' = [mkResolution 0 7; mkResolution 0 5]) as [-> | ->].
  { apply Permutation_length in Hp as Hlen.
    destruct l' as [|a [|b [|c l']]]; try discriminate.
    assert (a ∈ [mkResolution 0 5; mkResolution 0 7]) as Ha
      by (rewrite <-Hp; left).
    assert (b ∈ [mkResolution 0 5; mkResolution 0 7]) as Hb
      by (rewrite <-Hp; right; left).
    assert (mkResolution 0 5 ∈ [a; b]) as H5 by (rewrite Hp; left).
    assert (mkResolution 0 7 ∈ [a; b]) as H7 by (rewrite Hp; right; left).
    set_unfold. intuition (subst; auto; discriminate). }
  all: intros [_ Hnd]; vm_compute in Hnd;
    apply NoDup_cons in Hnd as [Hin _]; apply Hin; left.
Qed.

(** With non-zero widths the comparison is a strict total order, so the
    outcome of [std::sort] does not depend on the algorithm. *)
Lemma std_sort_outcome_unique rs l' :
  Forall (λ r, width r ≠ 0%N) rs →
  std_sort_spec res_before rs l' → l' = std_sort res_before rs.
Proof.
  intros Hw [Hp Hs].
  apply (StronglySorted_unique_strong res_not_after).
  - intros a b Ha Hb. apply res_not_after_antisym.
    + rewrite Hp in Ha. by eapply Forall_forall in Hw.
    + rewrite (std_sort_perm res_before rs) in Hb. by eapply Forall_forall in Hw.
  - by apply Sorted_StronglySorted; [apply _|].
  - apply std_sort_res_before_sorted.
  - by rewrite Hp, (std_sort_perm res_before rs).
Qed.

(** [grab_all_infos] keeps names and identities and applies
    [sort_and_deduplicate] to every resolution list. *)
Lemma elem_of_sort_infos raw info :
  info ∈ sort_infos raw ↔
  ∃ reported, reported ∈ raw ∧ name info = name reported ∧ id info = id reported
              ∧ resolutions info = sort_and_deduplicate (resolutions reported).
Proof.
  unfold sort_infos. rewrite list_elem_of_fmap. split.
  - intros (reported & -> & Hin). by exists reported.
  - intros (reported & Hin & Hn & Hi & Hr). exists reported. split; [|done].
    destruct info; simpl in *. by subst.
Qed.

(** ** The snapshot queries *)

Lemma find_info_None device l :
  find_info device l = None ↔ ∀ info, info ∈ l → id info ≠ device.
Proof.
  unfold find_info. induction l as [|i l IH]; simpl.
  - split; [|done]. by intros _ info ?%elem_of_nil.
  - case_bool_decide as Hi.
    + split; [done|]. intros H. destruct (H i); [left | done].
    + rewrite IH. split.
      * intros H info [->|?]%elem_of_cons; auto.
      * intros H info ?. apply H. by right.
Qed.

Lemma find_info_first device before it after :
  (∀ info, info ∈ before → id info ≠ device) → id it = device →
  find_info device (before ++ it :: after) = Some it.
Proof.
  unfold find_info. intros Hbefore Hit.
  induction before as [|i before IH]; simpl.
  - by rewrite bool_decide_eq_true_2.
  - rewrite bool_decide_eq_false_2 by (apply Hbefore; left).
    apply IH. intros info ?. apply Hbefore. by right.
Qed.

Lemma find_info_Some device l it :
  find_info device l = Some it →
  ∃ before after, l = before ++ it :: after
    ∧ (∀ info, info ∈ before → id info ≠ device) ∧ id it = device.
Proof.
  unfold find_info. induction l as [|i l IH]; simpl; [done|].
  case_bool_decide as Hi.
  - intros [= ->]. exists [], l. split; [done|]. split; [|done].
    by intros info ?%elem_of_nil.
  - intros (before & after & -> & Hb & Hit)%IH.
    exists (i :: before), after. split; [done|]. split; [|done].
    intros info [->|?]%elem_of_cons; auto.
Qed.

Lemma is_plugged_in_spec self device :
  is_plugged_in self device = true ↔ ∃ info, info ∈ _infos self ∧ id info = device.
Proof.
  unfold is_plugged_in. rewrite bool_decide_eq_true. split.
  - intros [it (before & after & Hl & _ & Hit)%find_info_Some].
    exists it. split; [|done]. rewrite Hl. set_solver.
  - intros (info & Hin & Hid).
    destruct (find_info device (_infos self)) eqn:Hf; [done|].
    rewrite find_info_None in Hf. by destruct (Hf info).
Qed.

(** The first entry of a list produced by [sort_and_deduplicate] is not
    after any other entry, zero widths or not. *)
Lemma sort_and_deduplicate_head_best rs r rest :
  sort_and_deduplicate rs = r :: rest →
  ∀ r', r' ∈ rs → res_before r' r = false.
Proof.
  intros Heq r' Hr'.
  pose proof (std_sort_res_before_sorted rs) as Hs.
  pose proof (head_std_unique (std_sort res_before rs)) as Hh.
  fold (sort_and_deduplicate rs) in Hh. rewrite Heq in Hh. simpl in Hh.
  rewrite <-(std_sort_perm res_before rs) in Hr'.
  destruct (std_sort res_before rs) as [|x l]; [done|].
  injection Hh as ->.
  apply StronglySorted_inv in Hs as [_ Hall].
  apply elem_of_cons in Hr' as [->|Hr'].
  - destruct (res_before x x) eqn:E; [|done].
    by rewrite (res_before_asym _ _ E) in E.
  - by eapply Forall_forall in Hall.
Qed.

(** C6: [default_resolution] returns the 1x1 sentinel when the device is
    absent from the snapshot or when its entry (the first one carrying the
    id) has an empty resolution list, and the first element of that entry's
    list otherwise; in a snapshot stored by a poll cycle that element is the
    best one: no resolution of the device is ordered before it. *)
Theorem C6_default_resolution (self : Manager) (device : DeviceId) :
  ((∀ info, info ∈ _infos self → id info ≠ device) →
     default_resolution self device = mkResolution 1 1)
  ∧ (∀ before it after,
       _infos self = before ++ it :: after →
       (∀ info, info ∈ before → id info ≠ device) → id it = device →
       (resolutions it = [] → default_resolution self device = mkResolution 1 1)
       ∧ (∀ r rest, resolutions it = r :: rest →
            default_resolution self device = r
            ∧ ∀ raw, _infos self = sort_infos raw →
                ∀ r', r' ∈ resolutions it → res_before r' r = false)).
Proof.
  split.
  - intros Habsent%find_info_None. unfold default_resolution. by rewrite Habsent.
  - intros before it after Hl Hbefore Hit.
    unfold default_resolution.
    rewrite Hl, (find_info_first _ _ _ _ Hbefore Hit).
    split; [by intros ->|].
    intros r rest Hr. split; [by rewrite Hr|].
    intros raw Hraw r' Hr'.
    assert (it ∈ sort_infos raw) as Hin.
    { rewrite <-Hraw. apply elem_of_app. right. left. }
    apply elem_of_sort_infos in Hin as (reported & _ & _ & _ & Hsorted).
    rewrite Hsorted in Hr, Hr'.
    rewrite elem_of_sort_and_deduplicate in Hr'.
    exact (sort_and_deduplicate_head_best _ _ _ Hr _ Hr').
Qed.

Lemma C6_witness :
  let self :=
    mkManager
      (sort_infos
         [mkInfo "Cam-A" (make_device_id "Cam-A")
                 [mkResolution 640 480; mkResolution 1280 720; mkResolution 1280 720]])
      ∅ in
  default_resolution self (make_device_id "Cam-B") = mkResolution 1 1
  ∧ default_resolution self (make_device_id "Cam-A") = mkResolution 1280 720.
Proof.
  intros self. split.
  - apply (proj1 (C6_default_resolution self (make_device_id "Cam-B"))).
    intros info [->|[]%elem_of_nil]%elem_of_cons. discriminate.
  - refine (proj1 (proj2 (proj2 (C6_default_resolution self (make_device_id "Cam-A"))
                            []
                            (mkInfo "Cam-A" (make_device_id "Cam-A")
                                    [mkResolution 1280 720; mkResolution 640 480])
                            [] eq_refl _ eq_refl) _ _ eq_refl)).
    by intros info ?%elem_of_nil.
Defined.

(** ** Enumeration: devices without resolutions are left out *)

Lemma internal_while_next_moniker_nonempty monikers cache infos cache' out :
  internal_wcam_windows.while_next_moniker monikers cache infos = (cache', Returns out) →
  Forall has_resolutions infos → Forall has_resolutions out.
Proof.
  revert cache infos.
  induction monikers as [|m monikers IH]; intros cache infos; simpl.
  - by intros [= _ ->].
  - destruct (internal_wcam_windows.find_webcam_name m) as [webcam_name|]; [|done].
    destruct (internal_wcam_windows.available_resolutions_of m webcam_name cache)
      as [cache1 [[|r rs]|]]; [by apply IH| |done].
    destruct (internal_wcam_windows.find_webcam_id m) as [webcam_id|]; [|done].
    intros Heq Hinfos. eapply IH; [done|].
    apply Forall_app. split; [done|]. by repeat constructor.
Qed.

Lemma internal_grab_all_infos_impl_nonempty env tl tl' out :
  internal_wcam_windows.grab_all_infos_impl env tl = (tl', Returns out) →
  Forall has_resolutions out.
Proof.
  unfold internal_wcam_windows.grab_all_infos_impl.
  destruct (CoInitializeIFN env tl) as [tl1 [[]|]]; [|done].
  destruct (THROW_IF_ERR (CoCreateInstance env) _ ;; _); [|done].
  destruct (video_input_devices env) as [monikers|]; [|by intros [= _ <-]].
  destruct (internal_wcam_windows.while_next_moniker _ _ _) as [cache result] eqn:Hloop.
  intros [= _ ->].
  by eapply internal_while_next_moniker_nonempty.
Qed.

Lemma get_devices_info_nonempty monikers cache infos :
  Forall has_resolutions infos →
  Forall has_resolutions (wcam_windows.get_devices_info monikers cache infos).2.
Proof.
  revert cache infos.
  induction monikers as [|m monikers IH]; intros cache infos Hinfos; simpl; [done|].
  destruct (FAILED (BindToStorage m)); [by apply IH|].
  destruct (Read_FriendlyName m) as [webcam_name|]; [|by apply IH].
  destruct (wcam_windows.available_resolutions_of m webcam_name cache)
    as [cache1 [|r rs]]; [by apply IH|].
  apply IH, Forall_app. split; [done|]. by repeat constructor.
Qed.

Lemma wcam_windows_grab_all_infos_impl_nonempty env tl tl' out :
  wcam_windows.grab_all_infos_impl env tl = (tl', Returns out) →
  Forall has_resolutions out.
Proof.
  unfold wcam_windows.grab_all_infos_impl.
  destruct (CoInitializeIFN env tl) as [tl1 [[]|]]; [|done].
  destruct (SUCCEEDED _); [|by intros [= _ <-]].
  pose proof (get_devices_info_nonempty
                (default [] (video_input_devices env)) (resolutions_cache tl1) [])
    as Hne.
  destruct (wcam_windows.get_devices_info _ _ _) as [cache l].
  intros [= _ <-]. by apply Hne.
Qed.

Lemma sort_and_deduplicate_nonempty rs : rs ≠ [] → sort_and_deduplicate rs ≠ [].
Proof.
  destruct rs as [|r rs]; [done|]. intros _ Hnil.
  assert (r ∈ sort_and_deduplicate (r :: rs)) as Hin
    by (apply elem_of_sort_and_deduplicate; left).
  rewrite Hnil in Hin. by apply elem_of_nil in Hin.
Qed.

Lemma sort_infos_nonempty raw :
  Forall has_resolutions raw → Forall has_resolutions (sort_infos raw).
Proof.
  unfold sort_infos. rewrite Forall_fmap. intros Hraw.
  eapply Forall_impl; [exact Hraw|].
  intros info. apply sort_and_deduplicate_nonempty.
Qed.

Lemma update_snapshot impl Capture_new rm self h :
  _infos (update impl Capture_new rm self h).1.1
  = match impl with
    | Returns raw => sort_infos raw
    | Throws _ => _infos self
    end
  ∧ _current_requests (update impl Capture_new rm self h).1.1 = _current_requests self.
Proof.
  unfold update, grab_all_infos. destruct impl as [raw|e]; simpl; [|done].
  by destruct (for_each_request _ _ _ _ _).
Qed.

Lemma update_snapshot_nonempty impl Capture_new rm self h :
  (∀ raw, impl = Returns raw → Forall has_resolutions raw) →
  snapshot_nonempty self →
  snapshot_nonempty (update impl Capture_new rm self h).1.1.
Proof.
  intros Himpl Hself. unfold snapshot_nonempty.
  rewrite (proj1 (update_snapshot _ _ _ _ _)).
  destruct impl as [raw|e]; [|done].
  by apply sort_infos_nonempty, Himpl.
Qed.

Lemma thread_job_snapshot_nonempty impl cycles rm tl self h :
  (∀ env tl tl' out, impl env tl = (tl', Returns out) → Forall has_resolutions out) →
  snapshot_nonempty self →
  snapshot_nonempty (thread_job impl cycles rm tl self h).1.1.2.
Proof.
  intros Himpl. revert tl self h.
  induction cycles as [|cycle cycles IH]; intros tl self h Hself; simpl; [done|].
  destruct (impl (devices cycle) tl) as [tl' result] eqn:Himpl'.
  pose proof (update_snapshot_nonempty result (Capture_new cycle) rm self h) as Hupd.
  destruct (update result (Capture_new cycle) rm self h) as [[self' h'] [[]|e]];
    simpl in *.
  - apply IH, Hupd; [|done]. intros raw ->. by eapply Himpl.
  - apply Hupd; [|done]. intros raw ->. by eapply Himpl.
Qed.

Lemma default_resolution_of_nonempty_snapshot self device :
  snapshot_nonempty self → is_plugged_in self device = true →
  ∃ it r rest, find_info device (_infos self) = Some it
    ∧ resolutions it = r :: rest ∧ default_resolution self device = r.
Proof.
  intros Hne Hplugged. unfold is_plugged_in in Hplugged.
  apply bool_decide_eq_true in Hplugged as [it Hit].
  assert (has_resolutions it) as Hres.
  { apply find_info_Some in Hit as (before & after & Hl & _).
    eapply Forall_forall in Hne; [done|]. rewrite Hl. set_solver. }
  unfold default_resolution. rewrite Hit.
  destruct (resolutions it) as [|r rest] eqn:Hr; [done|].
  by exists it, r, rest.
Qed.

(** C9: both enumeration back ends leave out a device whose resolution
    query yields an empty list, so in the snapshot kept by the polling
    thread every entry has a non-empty resolution list, and for a device of
    the snapshot [default_resolution] is the head of its entry's list: the
    empty-list branch is only taken for absent devices. *)
Theorem C9_snapshot_entries_have_resolutions
    (cycles : list PollCycle) (rm : ResolutionsManager) (tl : ThreadLocal) (h : Heap) :
  (∀ impl, impl = internal_wcam_windows.grab_all_infos_impl
           ∨ impl = wcam_windows.grab_all_infos_impl →
     (∀ env tl0 tl' out, impl env tl0 = (tl', Returns out) → Forall has_resolutions out)
     ∧ let self := (thread_job impl cycles rm tl new_manager h).1.1.2 in
       Forall has_resolutions (_infos self)
       ∧ ∀ device, is_plugged_in self device = true →
           ∃ it r rest, find_info device (_infos self) = Some it
             ∧ resolutions it = r :: rest ∧ default_resolution self device = r).
Proof.
  intros impl Himpl.
  assert (∀ env tl0 tl' out, impl env tl0 = (tl', Returns out) →
            Forall has_resolutions out) as Hout.
  { destruct Himpl as [-> | ->].
    - apply internal_grab_all_infos_impl_nonempty.
    - apply wcam_windows_grab_all_infos_impl_nonempty. }
  split; [done|]. simpl.
  assert (snapshot_nonempty (thread_job impl cycles rm tl new_manager h).1.1.2) as Hne.
  { apply thread_job_snapshot_nonempty; [done|]. constructor. }
  split; [done|]. intros device.
  by apply default_resolution_of_nonempty_snapshot.
Qed.

(** ** Enumeration: the resolution cache *)

Lemma reported_from_cache_weaken cache cache' l :
  cache ⊆ cache' → reported_from_cache cache l → reported_from_cache cache' l.
Proof. intros Hsub Hl info Hin. eapply lookup_weaken; [by apply Hl | done]. Qed.

Lemma reported_from_cache_snoc cache l info :
  reported_from_cache cache l → cache !! name info = Some (resolutions info) →
  reported_from_cache cache (l ++ [info]).
Proof.
  intros Hl Hinfo i [Hi|Hi%list_elem_of_singleton]%elem_of_app; [by apply Hl|].
  by subst i.
Qed.

Lemma internal_available_resolutions_of_cache m webcam_name cache cache' result :
  internal_wcam_windows.available_resolutions_of m webcam_name cache = (cache', result) →
  cache ⊆ cache' ∧ ∀ rs, result = Returns rs → cache' !! webcam_name = Some rs.
Proof.
  unfold internal_wcam_windows.available_resolutions_of.
  destruct (cache !! webcam_name) as [cached|] eqn:Hc.
  - intros [= <- <-]. split; [done|]. by intros rs [= <-].
  - destruct (THROW_IF_ERR _ _ ;; _) as [rs|e]; intros [= <- <-].
    + split; [by apply insert_subseteq|]. intros ? [= <-]. apply lookup_insert_eq.
    + split; [done|]. by intros rs.
Qed.

Lemma internal_while_next_moniker_cache monikers cache infos cache' result :
  internal_wcam_windows.while_next_moniker monikers cache infos = (cache', result) →
  cache ⊆ cache'
  ∧ (reported_from_cache cache infos →
     ∀ out, result = Returns out → reported_from_cache cache' out).
Proof.
  revert cache infos.
  induction monikers as [|m monikers IH]; intros cache infos; simpl.
  - intros [= <- <-]. split; [done|]. by intros ? ? [= <-].
  - destruct (internal_wcam_windows.find_webcam_name m) as [webcam_name|].
    2:{ intros [= <- <-]. split; [done|]. by intros. }
    destruct (internal_wcam_windows.available_resolutions_of m webcam_name cache)
      as [cache1 result1] eqn:Ha.
    apply internal_available_resolutions_of_cache in Ha as [Hsub Hcached].
    destruct result1 as [[|r rs]|e].
    + intros [Hsub' Hrep]%IH. split; [by etrans|].
      intros Hinfos. apply Hrep. by eapply reported_from_cache_weaken.
    + destruct (internal_wcam_windows.find_webcam_id m) as [webcam_id|].
      2:{ intros [= <- <-]. split; [done|]. by intros. }
      intros [Hsub' Hrep]%IH. split; [by etrans|].
      intros Hinfos. apply Hrep. apply reported_from_cache_snoc.
      * by eapply reported_from_cache_weaken.
      * simpl. by apply Hcached.
    + intros [= <- <-]. split; [done|]. by intros.
Qed.

Lemma wcam_windows_available_resolutions_of_cache m webcam_name cache :
  cache ⊆ (wcam_windows.available_resolutions_of m webcam_name cache).1
  ∧ (wcam_windows.available_resolutions_of m webcam_name cache).1 !! webcam_name
    = Some (wcam_windows.available_resolutions_of m webcam_name cache).2.
Proof.
  unfold wcam_windows.available_resolutions_of.
  destruct (cache !! webcam_name) as [cached|] eqn:Hc; simpl; [done|].
  split; [by apply insert_subseteq | apply lookup_insert_eq].
Qed.

Lemma get_devices_info_cache monikers cache infos :
  cache ⊆ (wcam_windows.get_devices_info monikers cache infos).1
  ∧ (reported_from_cache cache infos →
     reported_from_cache (wcam_windows.get_devices_info monikers cache infos).1
                         (wcam_windows.get_devices_info monikers cache infos).2).
Proof.
  revert cache infos.
  induction monikers as [|m monikers IH]; intros cache infos; simpl; [done|].
  destruct (FAILED (BindToStorage m)); [apply IH|].
  destruct (Read_FriendlyName m) as [webcam_name|]; [|apply IH].
  pose proof (wcam_windows_available_resolutions_of_cache m webcam_name cache)
    as [Hsub Hcached].
  destruct (wcam_windows.available_resolutions_of m webcam_name cache)
    as [cache1 [|r rs]]; simpl in *.
  - destruct (IH cache1 infos) as [Hsub' Hrep]. split; [by etrans|].
    intros Hinfos. apply Hrep. by eapply reported_from_cache_weaken.
  - match goal with |- context [wcam_windows.get_devices_info _ _ ?l] =>
      destruct (IH cache1 l) as [Hsub' Hrep] end.
    split; [by etrans|].
    intros Hinfos. apply Hrep. apply reported_from_cache_snoc; [|done].
    by eapply reported_from_cache_weaken.
Qed.

Lemma CoInitializeIFN_cache env tl :
  resolutions_cache (CoInitializeIFN env tl).1 = resolutions_cache tl.
Proof.
  unfold CoInitializeIFN. destruct (com_initialized tl); [done|].
  by destruct (THROW_IF_ERR _ _).
Qed.

Lemma internal_caching_backend : caching_backend internal_wcam_windows.grab_all_infos_impl.
Proof.
  intros env tl. unfold internal_wcam_windows.grab_all_infos_impl.
  pose proof (CoInitializeIFN_cache env tl) as Hco.
  destruct (CoInitializeIFN env tl) as [tl1 [[]|e]]; simpl in *;
    [|by rewrite Hco].
  destruct (THROW_IF_ERR (CoCreateInstance env) _ ;; _); simpl; [|by rewrite Hco].
  destruct (video_input_devices env) as [monikers|]; simpl.
  2:{ rewrite Hco. split; [done|]. by intros out [= <-] info ?%elem_of_nil. }
  destruct (internal_wcam_windows.while_next_moniker _ _ _) as [cache result] eqn:Hloop.
  apply internal_while_next_moniker_cache in Hloop as [Hsub Hrep]. simpl.
  rewrite <-Hco. split; [done|].
  intros out ->. apply Hrep; [|done]. by intros info ?%elem_of_nil.
Qed.

Lemma wcam_windows_caching_backend : caching_backend wcam_windows.grab_all_infos_impl.
Proof.
  intros env tl. unfold wcam_windows.grab_all_infos_impl.
  pose proof (CoInitializeIFN_cache env tl) as Hco.
  destruct (CoInitializeIFN env tl) as [tl1 [[]|e]]; simpl in *;
    [|by rewrite Hco].
  destruct (SUCCEEDED _); simpl.
  2:{ rewrite Hco. split; [done|]. by intros out [= <-] info ?%elem_of_nil. }
  pose proof (get_devices_info_cache (default [] (video_input_devices env))
                (resolutions_cache tl1) []) as [Hsub Hrep].
  destruct (wcam_windows.get_devices_info _ _ _) as [cache l]. simpl in *.
  rewrite <-Hco. split; [done|].
  intros out [= <-]. apply Hrep. by intros info ?%elem_of_nil.
Qed.

Lemma later_enumerations_cache impl envs tl :
  caching_backend impl →
  resolutions_cache tl ⊆ resolutions_cache (later_enumerations impl envs tl).
Proof.
  intros Himpl. revert tl. unfold later_enumerations.
  induction envs as [|env envs IH]; intros tl; simpl; [done|].
  etrans; [apply (Himpl env tl) | apply IH].
Qed.

Lemma cached_resolutions_reported_again impl env1 envs env2 tl out1 out2 info1 info2 :
  caching_backend impl →
  (impl env1 tl).2 = Returns out1 →
  (impl env2 (later_enumerations impl envs (impl env1 tl).1)).2 = Returns out2 →
  info1 ∈ out1 → info2 ∈ out2 → name info1 = name info2 →
  resolutions info1 = resolutions info2.
Proof.
  intros Himpl H1 H2 Hin1 Hin2 Hname.
  pose proof (proj2 (Himpl env1 tl) _ H1 _ Hin1) as Hc1.
  pose proof (proj2 (Himpl env2 _) _ H2 _ Hin2) as Hc2.
  eapply lookup_weaken in Hc1;
    [|etrans; [apply (later_enumerations_cache impl envs), Himpl
              | apply (Himpl env2)]].
  rewrite Hname in Hc1. congruence.
Qed.

(** C10: in the polling thread, once an enumeration has reported a device
    name with a resolution list, every later enumeration that reports the
    name reports the same list, whatever the hardware answers in between
    (unplugged, replugged, different capabilities); an entry of the cache is
    never changed; and on a cache hit the moniker is not consulted at all.
    This holds for both back ends and for the sorted lists stored in the
    snapshot. *)
Theorem C10_cached_resolutions_are_reported_again
    (impl : SystemDeviceEnum → ThreadLocal → ThreadLocal * outcome (list Info))
    (env1 : SystemDeviceEnum) (envs : list SystemDeviceEnum) (env2 : SystemDeviceEnum)
    (tl : ThreadLocal) (snapshot1 snapshot2 : list Info) (info1 info2 : Info) :
  impl = internal_wcam_windows.grab_all_infos_impl
  ∨ impl = wcam_windows.grab_all_infos_impl →
  grab_all_infos (impl env1 tl).2 = Returns snapshot1 →
  grab_all_infos (impl env2 (later_enumerations impl envs (impl env1 tl).1)).2
    = Returns snapshot2 →
  info1 ∈ snapshot1 → info2 ∈ snapshot2 → name info1 = name info2 →
  resolutions info1 = resolutions info2
  ∧ (∀ webcam_name cached,
       resolutions_cache (impl env1 tl).1 !! webcam_name = Some cached →
       resolutions_cache
         (impl env2 (later_enumerations impl envs (impl env1 tl).1)).1 !! webcam_name
       = Some cached)
  ∧ (∀ m m' cache cached, cache !! name info1 = Some cached →
       internal_wcam_windows.available_resolutions_of m (name info1) cache
       = internal_wcam_windows.available_resolutions_of m' (name info1) cache
       ∧ wcam_windows.available_resolutions_of m (name info1) cache
         = wcam_windows.available_resolutions_of m' (name info1) cache).
Proof.
  intros Himpl H1 H2 Hin1 Hin2 Hname.
  assert (caching_backend impl) as Hcaching.
  { destruct Himpl as [-> | ->];
      [apply internal_caching_backend | apply wcam_windows_caching_backend]. }
  split; [|split].
  2:{ intros webcam_name cached Hc. eapply lookup_weaken; [exact Hc|].
      etrans; [by apply (later_enumerations_cache impl envs) | apply (Hcaching env2)]. }
  - unfold grab_all_infos in H1, H2.
    destruct (impl env1 tl).2 as [out1|] eqn:Ho1; [|discriminate H1].
    destruct (impl env2 _).2 as [out2|] eqn:Ho2; [|discriminate H2].
    injection H1 as <-. injection H2 as <-.
    apply elem_of_sort_infos in Hin1 as (r1 & Hr1 & Hn1 & _ & ->).
    apply elem_of_sort_infos in Hin2 as (r2 & Hr2 & Hn2 & _ & ->).
    f_equal.
    apply (cached_resolutions_reported_again
             impl env1 envs env2 tl out1 out2 r1 r2 Hcaching Ho1 Ho2 Hr1 Hr2).
    congruence.
  - intros m m' cache cached Hc.
    unfold internal_wcam_windows.available_resolutions_of,
      wcam_windows.available_resolutions_of.
    by rewrite Hc.
Qed.

(** ** Heap operations keep requests and owners *)

Lemma same_owners_refl h : same_owners h h.
Proof. done. Qed.

Lemma same_owners_trans h1 h2 h3 :
  same_owners h1 h2 → same_owners h2 h3 → same_owners h1 h3.
Proof.
  intros [Hn1 Hb1] [Hn2 Hb2]. split; [congruence|].
  intros p. by rewrite Hb2, Hb1.
Qed.

Lemma same_owners_lookup h h' p b' :
  same_owners h h' → blocks h' !! p = Some b' →
  ∃ b, blocks h !! p = Some b ∧ request_id (object b) = request_id (object b')
       ∧ use_count b = use_count b'.
Proof.
  intros [_ Hb] Hp. specialize (Hb p). rewrite Hp in Hb. simpl in Hb.
  destruct (blocks h !! p) as [b|]; [|done].
  injection Hb as Hid Hcount. by exists b.
Qed.

Lemma same_owners_evolves h h' : same_owners h h' → heap_evolves h h'.
Proof.
  intros Hso. split; [destruct Hso as [-> _]; lia|].
  intros p b' _ Hp.
  destruct (same_owners_lookup _ _ _ _ Hso Hp) as (b & ? & ? & _). by exists b.
Qed.

Lemma heap_evolves_refl h : heap_evolves h h.
Proof. split; [done|]. intros p b _ Hp. by exists b. Qed.

Lemma heap_evolves_trans h1 h2 h3 :
  heap_evolves h1 h2 → heap_evolves h2 h3 → heap_evolves h1 h3.
Proof.
  intros [Hn1 Hb1] [Hn2 Hb2]. split; [lia|].
  intros p b3 Hp H3.
  destruct (Hb2 p b3) as (b2 & H2 & Hid2); [lia | done |].
  destruct (Hb1 p b2) as (b1 & H1 & Hid1); [done..|].
  exists b1. split; [done | congruence].
Qed.

Lemma registry_ok_same_owners self self' h h' :
  _current_requests self' = _current_requests self →
  same_owners h h' → registry_ok self h → registry_ok self' h'.
Proof.
  intros Hreg Hso [H1 H2 H3 H4 H5].
  pose proof Hso as [Hn _].
  split; rewrite ?Hreg, ?Hn.
  - intros p b' Hp.
    destruct (same_owners_lookup _ _ _ _ Hso Hp) as (b & Hb & _). eauto.
  - intros p b' Hp.
    destruct (same_owners_lookup _ _ _ _ Hso Hp) as (b & Hb & _ & <-). eauto.
  - intros p b' Hp.
    destruct (same_owners_lookup _ _ _ _ Hso Hp) as (b & Hb & <- & _). eauto.
  - done.
  - intros device p b' Hd Hp.
    destruct (same_owners_lookup _ _ _ _ Hso Hp) as (b & Hb & <- & _). eauto.
Qed.

Lemma assign_maybe_capture_lookup p v h q :
  blocks (assign_maybe_capture p v h) !! q
  = if decide (p = q)
    then (λ b, mkControlBlock (mkWebcamRequest (request_id (object b)) v) (use_count b))
           <$> blocks h !! q
    else blocks h !! q.
Proof.
  unfold assign_maybe_capture; simpl. rewrite lookup_alter.
  case_decide; by subst.
Qed.

Lemma assign_maybe_capture_same_owners p v h :
  same_owners h (assign_maybe_capture p v h).
Proof.
  split; [done|]. intros q. rewrite assign_maybe_capture_lookup.
  case_decide; [|done]. by destruct (blocks h !! q).
Qed.

Lemma request_restart_same_owners device self h :
  same_owners h (request_a_restart_of_the_capture_if_it_exists device self h).
Proof.
  unfold request_a_restart_of_the_capture_if_it_exists.
  destruct (_current_requests self !! device) as [weak|]; [|done].
  destruct (lock h weak); [|done].
  apply (assign_maybe_capture_same_owners weak CaptureNotInitYet h).
Qed.

Lemma for_each_request_same_owners entries Capture_new rm self h :
  same_owners h (for_each_request entries Capture_new rm self h).1.
Proof.
  revert h. induction entries as [|[d p] entries IH]; intros h; simpl; [done|].
  destruct (lock h p) as [request|]; [|apply IH].
  destruct (negb _).
  { eapply same_owners_trans; [apply assign_maybe_capture_same_owners | apply IH]. }
  destruct (holds_alternative_Capture _); [apply IH|].
  destruct (Capture_new _ _) as [capture|[hr code|capture_error]].
  - eapply same_owners_trans; [apply assign_maybe_capture_same_owners | apply IH].
  - done.
  - eapply same_owners_trans; [apply assign_maybe_capture_same_owners | apply IH].
Qed.

Lemma update_same_owners impl Capture_new rm self h :
  same_owners h (update impl Capture_new rm self h).1.2.
Proof.
  unfold update. destruct (grab_all_infos impl) as [snapshot|e]; simpl; [|done].
  pose proof (for_each_request_same_owners
                (map_to_list (_current_requests self)) Capture_new rm
                (mkManager snapshot (_current_requests self)) h) as Hso.
  by destruct (for_each_request _ _ _ _ _).
Qed.

Lemma set_selected_resolution_same_owners device resolution rm manager_unchecked h :
  same_owners h (set_selected_resolution device resolution rm manager_unchecked h).2.
Proof.
  unfold set_selected_resolution. case_bool_decide; simpl; [done|].
  destruct manager_unchecked; [apply request_restart_same_owners | done].
Qed.

(** ** Owners come and go *)

Lemma shared_ptr_copy_registry_ok self p h :
  registry_ok self h → registry_ok self (shared_ptr_copy p h).
Proof.
  intros [H1 H2 H3 H4 H5].
  assert (∀ q b', blocks (shared_ptr_copy p h) !! q = Some b' →
            ∃ b, blocks h !! q = Some b ∧ object b = object b') as Hlook.
  { intros q b'. unfold shared_ptr_copy; simpl. rewrite lookup_alter.
    case_decide; [subst q|by eauto].
    destruct (blocks h !! p) as [b|]; [|done]. intros [= <-]. by exists b. }
  split; simpl.
  - intros q b' (b & Hb & _)%Hlook. eauto.
  - intros q b'. unfold shared_ptr_copy; simpl. rewrite lookup_alter.
    case_decide; [subst q|by eauto].
    destruct (blocks h !! p) as [b|]; [|done]. intros [= <-]. simpl. lia.
  - intros q b' (b & Hb & <-)%Hlook. eauto.
  - done.
  - intros device q b' Hd (b & Hb & <-)%Hlook. eauto.
Qed.

Lemma shared_ptr_copy_evolves p h : heap_evolves h (shared_ptr_copy p h).
Proof.
  split; [done|]. intros q b' _. unfold shared_ptr_copy; simpl.
  rewrite lookup_alter. case_decide; [subst q|by eauto].
  destruct (blocks h !! p) as [b|]; [|done]. intros [= <-]. by exists b.
Qed.

Lemma shared_ptr_release_lookup p h q b' :
  blocks (shared_ptr_release p h) !! q = Some b' →
  ∃ b, blocks h !! q = Some b ∧ object b = object b'
       ∧ (0 < use_count b → 0 < use_count b').
Proof.
  unfold shared_ptr_release.
  destruct (blocks h !! p) as [bp|] eqn:Hp; [|by eauto].
  case_decide as Hcount; simpl.
  - rewrite lookup_delete. case_decide; [done | by eauto].
  - rewrite lookup_insert. case_decide; [|by eauto].
    subst q. intros [= <-]. exists bp. simpl. split; [done|]. split; [done | lia].
Qed.

Lemma shared_ptr_release_next p h :
  next_address (shared_ptr_release p h) = next_address h.
Proof.
  unfold shared_ptr_release. destruct (blocks h !! p); [|done]. by case_decide.
Qed.

Lemma shared_ptr_release_registry_ok self p h :
  registry_ok self h → registry_ok self (shared_ptr_release p h).
Proof.
  intros [H1 H2 H3 H4 H5]. split; rewrite ?shared_ptr_release_next.
  - intros q b' (b & Hb & _)%shared_ptr_release_lookup. eauto.
  - intros q b' (b & Hb & _ & Hpos)%shared_ptr_release_lookup. eauto.
  - intros q b' (b & Hb & <- & _)%shared_ptr_release_lookup. eauto.
  - done.
  - intros device q b' Hd (b & Hb & <- & _)%shared_ptr_release_lookup. eauto.
Qed.

Lemma shared_ptr_release_evolves p h : heap_evolves h (shared_ptr_release p h).
Proof.
  split; [by rewrite shared_ptr_release_next|].
  intros q b' _ (b & Hb & Hobj & _)%shared_ptr_release_lookup.
  exists b. by rewrite Hobj.
Qed.

(** ** Acquiring a session *)

Lemma lock_is_Some h p : is_Some (lock h p) ↔ is_Some (blocks h !! p).
Proof. unfold lock. apply fmap_is_Some. Qed.

Lemma open_or_get_webcam_live device self h p :
  _current_requests self !! device = Some p → is_Some (blocks h !! p) →
  open_or_get_webcam device self h = (p, self, shared_ptr_copy p h).
Proof.
  intros Hreg [b Hb]. unfold open_or_get_webcam, lock. by rewrite Hreg, Hb.
Qed.

Lemma open_or_get_webcam_stale device self h :
  (∀ p, _current_requests self !! device = Some p → blocks h !! p = None) →
  open_or_get_webcam device self h = create_request device self h.
Proof.
  intros Hstale. unfold open_or_get_webcam, lock.
  destruct (_current_requests self !! device) as [p|]; [|done].
  by rewrite (Hstale p).
Qed.

Lemma open_or_get_webcam_cases device self h :
  (∃ p, _current_requests self !! device = Some p ∧ is_Some (blocks h !! p)
        ∧ open_or_get_webcam device self h = (p, self, shared_ptr_copy p h))
  ∨ ((∀ p, _current_requests self !! device = Some p → blocks h !! p = None)
     ∧ open_or_get_webcam device self h = create_request device self h).
Proof.
  destruct (_current_requests self !! device) as [p|] eqn:Hreg.
  - destruct (blocks h !! p) as [b|] eqn:Hb.
    + left. exists p. split; [done|]. split; [by eexists|].
      by apply open_or_get_webcam_live.
    + right. split; [by intros ? [= <-]|].
      apply open_or_get_webcam_stale. rewrite Hreg. by intros ? [= <-].
  - right. split; [done|]. apply open_or_get_webcam_stale. by rewrite Hreg.
Qed.

Lemma create_request_registry_ok device self h :
  (∀ p, _current_requests self !! device = Some p → blocks h !! p = None) →
  registry_ok self h →
  registry_ok (create_request device self h).1.2 (create_request device self h).2.
Proof.
  intros Hstale [H1 H2 H3 H4 H5]. unfold create_request, make_shared; simpl.
  split; simpl.
  - intros q b. rewrite lookup_insert. case_decide; [lia|].
    intros ?%H1. lia.
  - intros q b. rewrite lookup_insert. case_decide; [by intros [= <-]; simpl; lia|].
    apply H2.
  - intros q b. rewrite lookup_insert. case_decide as Hq.
    + intros [= <-]. simpl. subst q. apply lookup_insert_eq.
    + intros Hb. rewrite lookup_insert_ne; [by apply H3|].
      intros Hdev. specialize (H3 q b Hb). rewrite <-Hdev in H3.
      specialize (Hstale q H3). congruence.
  - intros d q. rewrite lookup_insert. case_decide; [intros [= <-]; lia|].
    intros ?%H4. lia.
  - intros d q b. rewrite !lookup_insert.
    case_decide as Hd; case_decide as Hq; try subst d; try subst q.
    + by intros _ [= <-].
    + by intros [= <-].
    + intros ?%H4. lia.
    + apply H5.
Qed.

Lemma create_request_evolves device self h :
  (∀ p b, blocks h !! p = Some b → p < next_address h) →
  heap_evolves h (create_request device self h).2.
Proof.
  intros Hbelow. unfold create_request, make_shared; simpl. split; simpl; [lia|].
  intros p b' Hp. rewrite lookup_insert. case_decide; [lia|]. by eauto.
Qed.

Lemma open_or_get_webcam_registry_ok device self h :
  registry_ok self h →
  registry_ok (open_or_get_webcam device self h).1.2 (open_or_get_webcam device self h).2.
Proof.
  intros Hok.
  destruct (open_or_get_webcam_cases device self h)
    as [(p & _ & _ & ->) | [Hstale ->]]; simpl.
  - by apply shared_ptr_copy_registry_ok.
  - by apply create_request_registry_ok.
Qed.

Lemma open_or_get_webcam_evolves device self h :
  registry_ok self h → heap_evolves h (open_or_get_webcam device self h).2.
Proof.
  intros Hok.
  destruct (open_or_get_webcam_cases device self h)
    as [(p & _ & _ & ->) | [Hstale ->]]; simpl.
  - apply shared_ptr_copy_evolves.
  - apply (create_request_evolves device self h), (live_below_next _ _ Hok).
Qed.

(** The request handed out is live and was created for the device. *)
Lemma open_or_get_webcam_returns_live device self h :
  registry_ok self h →
  live_session (open_or_get_webcam device self h).2 device
               (open_or_get_webcam device self h).1.1.
Proof.
  intros Hok.
  destruct (open_or_get_webcam_cases device self h)
    as [(p & Hreg & [b Hb] & ->) | [Hstale ->]]; simpl.
  - exists (mkControlBlock (object b) (S (use_count b))).
    unfold shared_ptr_copy; simpl. rewrite lookup_alter_eq, Hb.
    split; [done|]. simpl. by eapply (registered_for_device _ _ Hok).
  - unfold create_request, make_shared; simpl.
    eexists. split; [apply lookup_insert_eq | done].
Qed.

(** ** Histories *)

Lemma initial_world_ok : registry_ok (manager initial_world) (heap initial_world).
Proof. split; simpl; intros *; by rewrite ?lookup_empty. Qed.

Lemma step_registry_ok w c :
  registry_ok (manager w) (heap w) →
  registry_ok (manager (step w c)) (heap (step w c)).
Proof.
  intros Hok.
  destruct c as [device|p|p|device|device resolution|impl open]; simpl.
  - pose proof (open_or_get_webcam_registry_ok device _ _ Hok) as Hok'.
    by destruct (open_or_get_webcam _ _ _) as [[? ?] ?].
  - by apply shared_ptr_copy_registry_ok.
  - by apply shared_ptr_release_registry_ok.
  - eapply registry_ok_same_owners; [done | apply request_restart_same_owners | done].
  - pose proof (set_selected_resolution_same_owners device resolution
                  (resolutions_manager w) (Some (manager w)) (heap w)) as Hso.
    destruct (set_selected_resolution _ _ _ _ _) as [rm h'].
    by eapply registry_ok_same_owners.
  - pose proof (update_same_owners impl open
                  (resolutions_manager w) (manager w) (heap w)) as Hso.
    pose proof (proj2 (update_snapshot impl open
                  (resolutions_manager w) (manager w) (heap w))) as Hreg.
    destruct (update _ _ _ _ _) as [[m h'] r].
    by eapply registry_ok_same_owners.
Qed.

Lemma step_evolves w c :
  registry_ok (manager w) (heap w) → heap_evolves (heap w) (heap (step w c)).
Proof.
  intros Hok.
  destruct c as [device|p|p|device|device resolution|impl open]; simpl.
  - pose proof (open_or_get_webcam_evolves device _ _ Hok) as Hev.
    by destruct (open_or_get_webcam _ _ _) as [[? ?] ?].
  - apply shared_ptr_copy_evolves.
  - apply shared_ptr_release_evolves.
  - apply same_owners_evolves, request_restart_same_owners.
  - pose proof (set_selected_resolution_same_owners device resolution
                  (resolutions_manager w) (Some (manager w)) (heap w)) as Hso.
    destruct (set_selected_resolution _ _ _ _ _) as [rm h'].
    by apply same_owners_evolves.
  - pose proof (update_same_owners impl open
                  (resolutions_manager w) (manager w) (heap w)) as Hso.
    destruct (update _ _ _ _ _) as [[m h'] r].
    by apply same_owners_evolves.
Qed.

Lemma run_registry_ok history w :
  registry_ok (manager w) (heap w) →
  registry_ok (manager (run history w)) (heap (run history w))
  ∧ heap_evolves (heap w) (heap (run history w)).
Proof.
  revert w. unfold run.
  induction history as [|c history IH]; intros w Hok; simpl.
  - split; [done | apply heap_evolves_refl].
  - destruct (IH (step w c)) as [Hok' Hev]; [by apply step_registry_ok|].
    split; [done|].
    eapply heap_evolves_trans; [by apply step_evolves | done].
Qed.

Lemma registry_ok_one_session self h device p q :
  registry_ok self h →
  live_session h device p → live_session h device q → p = q.
Proof.
  intros Hok (bp & Hp & Hidp) (bq & Hq & Hidq).
  pose proof (live_is_registered _ _ Hok _ _ Hp) as Hrp.
  pose proof (live_is_registered _ _ Hok _ _ Hq) as Hrq.
  congruence.
Qed.

(** C1: in every world reached by a history of calls there is at most one
    live session per device; and when a session handed out by
    [open_or_get_webcam] is still alive after any further history, a second
    [open_or_get_webcam] for the device hands out that same session, adds
    an owner to it and creates nothing. *)
Theorem C1_one_live_session_per_device
    (history later : list Call) (device : DeviceId) :
  let w := run history initial_world in
  let '(request, self1, h1) := open_or_get_webcam device (manager w) (heap w) in
  let w' := run later (mkWorld self1 h1 (resolutions_manager w)) in
  (∀ calls d p q,
     live_session (heap (run calls initial_world)) d p →
     live_session (heap (run calls initial_world)) d q → p = q)
  ∧ (is_Some (blocks (heap w') !! request) →
     let '(request', self2, h2) := open_or_get_webcam device (manager w') (heap w') in
     request' = request
     ∧ self2 = manager w'
     ∧ h2 = shared_ptr_copy request (heap w')
     ∧ ∀ d p, live_session h2 d p ↔ live_session (heap w') d p).
Proof.
  intros w.
  destruct (run_registry_ok history initial_world initial_world_ok) as [Hok _].
  fold w in Hok.
  pose proof (open_or_get_webcam_registry_ok device _ _ Hok) as Hok1.
  pose proof (open_or_get_webcam_returns_live device _ _ Hok) as Hlive1.
  destruct (open_or_get_webcam device (manager w) (heap w))
    as [[request self1] h1]; simpl in *.
  destruct (run_registry_ok later (mkWorld self1 h1 (resolutions_manager w)) Hok1)
    as [Hok' Hev].
  set (w' := run later (mkWorld self1 h1 (resolutions_manager w))) in *.
  simpl in Hev.
  split.
  { intros calls d p q.
    apply (registry_ok_one_session (manager (run calls initial_world))).
    apply (run_registry_ok calls initial_world initial_world_ok). }
  intros [b' Hb'].
  assert (request_id (object b') = device) as Hid.
  { destruct Hlive1 as (b1 & Hb1 & Hid1).
    destruct Hev as [_ Hev].
    destruct (Hev request b') as (b & Hb & Hidb); [|done|congruence].
    by eapply (live_below_next _ _ Hok1). }
  assert (_current_requests (manager w') !! device = Some request) as Hreg.
  { rewrite <-Hid. by eapply (live_is_registered _ _ Hok'). }
  rewrite (open_or_get_webcam_live device _ _ request Hreg) by by eexists.
  repeat split; try done.
  - intros (b & Hb & Hidb). unfold shared_ptr_copy in Hb; simpl in Hb.
    apply lookup_alter_Some in Hb as [(_ & b0 & Hb0 & ->) | [_ Hb]];
      [by exists b0 | by exists b].
  - intros (b & Hb & Hidb). unfold shared_ptr_copy; simpl.
    destruct (decide (request = p)) as [<-|Hne].
    + exists (mkControlBlock (object b) (S (use_count b))).
      split; [simpl; by rewrite lookup_alter_eq, Hb | done].
    + exists b. simpl. by rewrite lookup_alter_ne.
Qed.

Lemma C1_witness :
  let device := Scenario.Cam_A in
  let w := run [call_open_or_get_webcam device] initial_world in
  is_Some (blocks (heap w) !! 0)
  ∧ (open_or_get_webcam device (manager w) (heap w)).1.1 = 0
  ∧ ∀ calls d p q,
      live_session (heap (run calls initial_world)) d p →
      live_session (heap (run calls initial_world)) d q → p = q.
Proof.
  pose proof (C1_one_live_session_per_device
                [] [] Scenario.Cam_A) as H.
  simpl in H. destruct H as [Hone Htwice].
  assert (is_Some (blocks (heap (run [call_open_or_get_webcam Scenario.Cam_A]
                                     initial_world)) !! 0)) as Hlive
    by (by eexists).
  split; [exact Hlive|]. split; [|exact Hone].
  specialize (Htwice Hlive).
  destruct (open_or_get_webcam Scenario.Cam_A _ _) as [[request' self2] h2].
  by destruct Htwice as [-> _].
Defined.

(** C8: when the registry still remembers an address for the device but
    the request behind it has been destroyed, [open_or_get_webcam] hands out
    a request at a new address, not initialised, with the caller as its
    only owner, and remembers that one instead; no other request is
    touched. *)
Theorem C8_stale_entry_gives_fresh_session
    (history : list Call) (device : DeviceId) (stale : nat) :
  let w := run history initial_world in
  _current_requests (manager w) !! device = Some stale →
  lock (heap w) stale = None →
  let '(request, self', h') := open_or_get_webcam device (manager w) (heap w) in
  request ≠ stale
  ∧ blocks (heap w) !! request = None
  ∧ blocks h' !! request
    = Some (mkControlBlock (mkWebcamRequest device CaptureNotInitYet) 1)
  ∧ _current_requests self' !! device = Some request
  ∧ ∀ p, p ≠ request → blocks h' !! p = blocks (heap w) !! p.
Proof.
  intros w Hreg Hdead.
  destruct (run_registry_ok history initial_world initial_world_ok) as [Hok _].
  fold w in Hok.
  assert (blocks (heap w) !! stale = None) as Hnone.
  { unfold lock in Hdead. by destruct (blocks (heap w) !! stale). }
  rewrite open_or_get_webcam_stale by (intros p; rewrite Hreg; by intros [= <-]).
  unfold create_request, make_shared; simpl.
  split; [|split; [|split; [|split]]].
  - pose proof (registered_below_next _ _ Hok _ _ Hreg). lia.
  - destruct (blocks (heap w) !! next_address (heap w)) as [b|] eqn:Hb; [|done].
    pose proof (live_below_next _ _ Hok _ _ Hb). lia.
  - apply lookup_insert_eq.
  - apply lookup_insert_eq.
  - intros p Hp. by rewrite lookup_insert_ne.
Qed.

Lemma C8_witness :
  let device := Scenario.Cam_A in
  let w := run [call_open_or_get_webcam device; call_drop_SharedWebcam 0]
               initial_world in
  (_current_requests (manager w) !! device = Some 0 ∧ lock (heap w) 0 = None)
  ∧ let '(request, self', h') := open_or_get_webcam device (manager w) (heap w) in
    request ≠ 0
    ∧ blocks (heap w) !! request = None
    ∧ blocks h' !! request
      = Some (mkControlBlock (mkWebcamRequest device CaptureNotInitYet) 1)
    ∧ _current_requests self' !! device = Some request
    ∧ ∀ p, p ≠ request → blocks h' !! p = blocks (heap w) !! p.
Proof.
  intros device w.
  assert (_current_requests (manager w) !! device = Some 0) as Hreg by reflexivity.
  assert (lock (heap w) 0 = None) as Hdead by reflexivity.
  split; [by split|].
  exact (C8_stale_entry_gives_fresh_session
           [call_open_or_get_webcam device; call_drop_SharedWebcam 0]
           device 0 Hreg Hdead).
Defined.

(** The session handed out after the drop is a new one, at a new address. *)
Example reacquire_after_drop :
  let w := run [call_open_or_get_webcam Scenario.Cam_A; call_drop_SharedWebcam 0]
               initial_world in
  (open_or_get_webcam Scenario.Cam_A (manager w) (heap w)).1.1 = 1.
Proof. reflexivity. Qed.

Lemma C9_witness :
  let impl := internal_wcam_windows.grab_all_infos_impl in
  let cycles :=
    [mkPollCycle
       (Scenario.attached
          [Scenario.webcam "Cam-A" "Cam-A" Scenario.Cam_A_caps;
           Scenario.webcam "Cam-B" "Cam-B" []])
       Scenario.always_opens] in
  let self :=
    (thread_job impl cycles (mkResolutionsManager ∅) fresh_thread
                new_manager empty_heap).1.1.2 in
  (impl = internal_wcam_windows.grab_all_infos_impl
   ∨ impl = wcam_windows.grab_all_infos_impl)
  ∧ Forall has_resolutions (_infos self)
  ∧ is_plugged_in self Scenario.Cam_B = false.
Proof.
  intros impl cycles self.
  assert (impl = internal_wcam_windows.grab_all_infos_impl
          ∨ impl = wcam_windows.grab_all_infos_impl) as Himpl by (by left).
  split; [exact Himpl|].
  split; [|reflexivity].
  exact (proj1 (proj2 (C9_snapshot_entries_have_resolutions
                         cycles (mkResolutionsManager ∅) fresh_thread empty_heap
                         impl Himpl))).
Defined.

Lemma C10_witness :
  let impl := internal_wcam_windows.grab_all_infos_impl in
  let plugged := Scenario.attached [Scenario.webcam "Cam-A" "Cam-A" Scenario.Cam_A_caps] in
  let unplugged := Scenario.attached [] in
  let replugged :=
    Scenario.attached [Scenario.webcam "Cam-A" "Cam-A" [mkResolution 320 240]] in
  let info :=
    mkInfo "Cam-A" Scenario.Cam_A [mkResolution 1280 720; mkResolution 640 480] in
  grab_all_infos (impl plugged fresh_thread).2 = Returns [info]
  ∧ grab_all_infos
      (impl replugged
            (later_enumerations impl [unplugged] (impl plugged fresh_thread).1)).2
    = Returns [info]
  ∧ resolutions info = resolutions info.
Proof.
  intros impl plugged unplugged replugged info.
  assert (grab_all_infos (impl plugged fresh_thread).2 = Returns [info]) as H1
    by reflexivity.
  assert (grab_all_infos
            (impl replugged
               (later_enumerations impl [unplugged] (impl plugged fresh_thread).1)).2
          = Returns [info]) as H2 by reflexivity.
  split; [exact H1|]. split; [exact H2|].
  refine (proj1 (C10_cached_resolutions_are_reported_again
                   impl plugged [unplugged] replugged fresh_thread [info] [info]
                   info info (or_introl eq_refl) H1 H2 _ _ eq_refl));
    apply list_elem_of_singleton; reflexivity.
Defined.

(** ** One poll cycle *)

Lemma polled_state_idempotent Capture_new rm self request :
  polled_state Capture_new rm self
    (mkWebcamRequest (request_id request) (polled_state Capture_new rm self request))
  = polled_state Capture_new rm self request.
Proof.
  unfold polled_state; simpl.
  destruct (is_plugged_in self (request_id request)); [|done].
  destruct (maybe_capture request) as [|capture|error]; [|done|];
    by destruct (Capture_new _ _) as [capture'|[hr code|error']] eqn:Hnew;
      rewrite ?Hnew.
Qed.

Lemma poll_block_idempotent Capture_new rm self b :
  poll_block Capture_new rm self (poll_block Capture_new rm self b)
  = poll_block Capture_new rm self b.
Proof. unfold poll_block; simpl. by rewrite polled_state_idempotent. Qed.

(** One iteration of the loop: the request of the entry, if alive, is left
    in its polled state, and the loop goes on. *)
Lemma for_each_request_step d p0 rest Capture_new rm self h :
  throws_only_CaptureException Capture_new →
  ∃ h1, for_each_request ((d, p0) :: rest) Capture_new rm self h
        = for_each_request rest Capture_new rm self h1
    ∧ next_address h1 = next_address h ∧ restarts h1 = restarts h
    ∧ ∀ p, blocks h1 !! p
           = if decide (p0 = p)
             then poll_block Capture_new rm self <$> blocks h !! p
             else blocks h !! p.
Proof.
  intros Hcontained. simpl. unfold lock.
  destruct (blocks h !! p0) as [b0|] eqn:Hb0; simpl.
  2:{ exists h. repeat split; try done. intros p.
      case_decide; [subst p; by rewrite Hb0 | done]. }
  assert (∀ v, v = polled_state Capture_new rm self (object b0) →
            ∀ p, blocks (assign_maybe_capture p0 v h) !! p
                 = if decide (p0 = p)
                   then poll_block Capture_new rm self <$> blocks h !! p
                   else blocks h !! p) as Hassign.
  { intros v -> p. rewrite assign_maybe_capture_lookup.
    case_decide; [subst p|done]. by rewrite Hb0. }
  unfold polled_state in Hassign.
  destruct (is_plugged_in self (request_id (object b0))) eqn:Hplugged; simpl.
  2:{ eexists. split; [done|]. repeat split; try done. by apply Hassign. }
  destruct (maybe_capture (object b0)) as [|capture|error] eqn:Hstate; simpl.
  2:{ exists h. repeat split; try done. intros p.
      case_decide; [subst p|done]. rewrite Hb0. simpl. f_equal.
      unfold poll_block, polled_state. rewrite Hplugged, Hstate, <-Hstate.
      by destruct b0 as [[] ?]. }
  all: destruct (Capture_new _ _) as [capture'|[hr code|error']] eqn:Hnew;
    [|by destruct (Hcontained _ _ _ _ Hnew)|];
    (eexists; split; [done|]; repeat split; try done; by apply Hassign).
Qed.

Lemma for_each_request_polls entries Capture_new rm self h :
  throws_only_CaptureException Capture_new →
  ∃ h', for_each_request entries Capture_new rm self h = (h', Returns tt)
    ∧ next_address h' = next_address h ∧ restarts h' = restarts h
    ∧ ∀ p, blocks h' !! p
           = (λ b, if decide (p ∈ entries.*2)
                   then poll_block Capture_new rm self b else b)
             <$> blocks h !! p.
Proof.
  intros Hcontained. revert h.
  induction entries as [|[d p0] entries IH]; intros h.
  - exists h. repeat split; try done. intros p.
    by destruct (blocks h !! p).
  - destruct (for_each_request_step d p0 entries Capture_new rm self h Hcontained)
      as (h1 & -> & Hn1 & Hr1 & Hb1).
    destruct (IH h1) as (h' & Heq & Hn & Hr & Hb).
    exists h'. split; [done|]. split; [congruence|]. split; [congruence|].
    intros p. rewrite Hb, Hb1.
    destruct (decide (p0 = p)) as [<-|Hne].
    + destruct (blocks h !! p0) as [b0|]; [|done].
      change (((d, p0) :: entries).*2) with (p0 :: entries.*2).
      cbn [fmap option_fmap option_map]. f_equal.
      rewrite (decide_True (P := p0 ∈ p0 :: entries.*2)) by left.
      case_decide; [by rewrite poll_block_idempotent | done].
    + destruct (blocks h !! p) as [b|]; [|done].
      change (((d, p0) :: entries).*2) with (p0 :: entries.*2).
      cbn [fmap option_fmap option_map]. f_equal.
      destruct (decide (p ∈ entries.*2)) as [Hin|Hnin].
      * by rewrite decide_True by by right.
      * rewrite decide_False; [done|].
        intros [?|?]%elem_of_cons; congruence.
Qed.

(** A completed poll cycle: the snapshot is replaced and every live request
    is left in its polled state. *)
Lemma update_polls raw Capture_new rm self h :
  registry_ok self h → throws_only_CaptureException Capture_new →
  let self' := mkManager (sort_infos raw) (_current_requests self) in
  ∃ h', update (Returns raw) Capture_new rm self h = (self', h', Returns tt)
    ∧ next_address h' = next_address h ∧ restarts h' = restarts h
    ∧ ∀ p, blocks h' !! p = poll_block Capture_new rm self' <$> blocks h !! p.
Proof.
  intros Hok Hcontained self'. unfold update; simpl. fold self'.
  destruct (for_each_request_polls (map_to_list (_current_requests self))
              Capture_new rm self' h Hcontained) as (h' & -> & Hn & Hr & Hb).
  exists h'. repeat split; try done.
  intros p. rewrite Hb. destruct (blocks h !! p) as [b|] eqn:Hp; simpl; [|done].
  rewrite decide_True; [done|].
  apply list_elem_of_fmap. exists (request_id (object b), p). split; [done|].
  apply elem_of_map_to_list. by eapply (live_is_registered _ _ Hok).
Qed.

(** ** A request holds a capture only for an attached device *)





Lemma find_info_sort_infos device raw :
  is_Some (find_info device (sort_infos raw)) ↔ is_Some (find_info device raw).
Proof.
  unfold find_info, sort_infos.
  induction raw as [|info raw IH]; simpl; [done|].
  case_bool_decide; [by split; eauto | done].
Qed.

Lemma is_plugged_in_update raw reg device :
  is_plugged_in (mkManager (sort_infos raw) reg) device = true
  ↔ ∃ info, info ∈ raw ∧ id info = device.
Proof.
  rewrite <-(is_plugged_in_spec (mkManager raw reg)).
  unfold is_plugged_in; simpl.
  by rewrite !bool_decide_eq_true, find_info_sort_infos.
Qed.



(** [update] is its first block followed, when the enumeration returned,
    by the loop over the requests. *)
Lemma update_after_replace_infos impl open rm self h :
  update impl open rm self h
  = match replace_infos impl self with
    | (self', Returns _) =>
        let '(h', result) :=
          for_each_request (map_to_list (_current_requests self')) open rm self' h in
        (self', h', result)
    | (self', Throws e) => (self', h, Throws e)
    end.
Proof. unfold update, replace_infos. by destruct (grab_all_infos impl). Qed.


(** ** Unplugging and replugging *)

Lemma update_session raw open rm self h request b :
  registry_ok self h → throws_only_CaptureException open →
  blocks h !! request = Some b →
  let self' := mkManager (sort_infos raw) (_current_requests self) in
  ∃ h', update (Returns raw) open rm self h = (self', h', Returns tt)
    ∧ registry_ok self' h'
    ∧ next_address h' = next_address h
    ∧ blocks h' !! request = Some (poll_block open rm self' b).
Proof.
  intros Hok Hcontained Hb self'.
  destruct (update_polls raw open rm self h Hok Hcontained)
    as (h' & Hupd & Hn & _ & Hblocks).
  exists h'. split; [done|]. split; [|split; [done|by rewrite Hblocks, Hb]].
  eapply (registry_ok_same_owners self); [done| |done].
  pose proof (update_same_owners (Returns raw) open rm self h) as Hso.
  by rewrite Hupd in Hso.
Qed.

(** What the poller leaves in a request that does not hold a capture and
    whose device is attached: the outcome of constructing a [Capture]. *)
Lemma polled_state_retry open rm self request :
  is_plugged_in self (request_id request) = true →
  holds_alternative_Capture (maybe_capture request) = false →
  polled_state open rm self request
  = match open (request_id request)
            (selected_resolution rm self (request_id request)) with
    | Returns capture => holds_Capture capture
    | Throws (CaptureException capture_error) => holds_CaptureError capture_error
    | Throws (std_runtime_error _ _) => maybe_capture request
    end.
Proof.
  intros Hplugged Hstate. unfold polled_state. rewrite Hplugged.
  by destruct (maybe_capture request).
Qed.

(** X27: where two consecutive poll cycles run to their end (their
    enumerations return and the constructor of [Capture] throws nothing
    but [CaptureException]) and no caller call comes in between, a
    session that holds a capture and keeps its owners goes to
    [Error_WebcamUnplugged] in the poll cycle whose enumeration lacks the
    device, and back to holding a capture in a later cycle whose
    enumeration has the device and whose open succeeds, with no call to
    [open_or_get_webcam] in between and no new request created; and from
    any error state, each cycle that finds the device attached constructs a
    [Capture] again and records its outcome. *)
Theorem X27_unplug_replug_in_completed_cycles
    (history : list Call) (request : nat) (device : DeviceId) (capture0 capture : Capture)
    (raw1 raw2 : list Info) (open1 open2 : DeviceId → Resolution → outcome Capture) :
  let w := run history initial_world in
  let rm := resolutions_manager w in
  let self1 := mkManager (sort_infos raw1) (_current_requests (manager w)) in
  let self2 := mkManager (sort_infos raw2) (_current_requests (manager w)) in
  live_session (heap w) device request →
  session_state (heap w) request = Some (holds_Capture capture0) →
  (∀ info, info ∈ raw1 → id info ≠ device) →
  (∃ info, info ∈ raw2 ∧ id info = device) →
  throws_only_CaptureException open1 → throws_only_CaptureException open2 →
  open2 device (selected_resolution rm self2 device) = Returns capture →
  (∃ h1 h2,
     update (Returns raw1) open1 rm (manager w) (heap w) = (self1, h1, Returns tt)
     ∧ session_state h1 request = Some (holds_CaptureError Error_WebcamUnplugged)
     ∧ update (Returns raw2) open2 rm self1 h1 = (self2, h2, Returns tt)
     ∧ session_state h2 request = Some (holds_Capture capture)
     ∧ next_address h2 = next_address (heap w))
  ∧ ∀ error open h,
      registry_ok self1 h → live_session h device request →
      session_state h request = Some (holds_CaptureError error) →
      throws_only_CaptureException open →
      ∃ h', update (Returns raw2) open rm self1 h = (self2, h', Returns tt)
        ∧ session_state h' request
          = Some match open device (selected_resolution rm self2 device) with
                 | Returns c => holds_Capture c
                 | Throws (CaptureException e) => holds_CaptureError e
                 | Throws (std_runtime_error _ _) => holds_CaptureError error
                 end.
Proof.
  intros w rm self1 self2 (b & Hb & Hid) Hstate Habsent Hpresent Hc1 Hc2 Hopen.
  destruct (run_registry_ok history initial_world initial_world_ok) as [Hok _].
  fold w in Hok.
  assert (is_plugged_in self2 device = true) as Hplugged2
    by by apply is_plugged_in_update.
  assert (∀ error open h,
            registry_ok self1 h → live_session h device request →
            holds_alternative_Capture error = false →
            session_state h request = Some error →
            throws_only_CaptureException open →
            ∃ h', update (Returns raw2) open rm self1 h = (self2, h', Returns tt)
              ∧ next_address h' = next_address h
              ∧ session_state h' request
                = Some match open device (selected_resolution rm self2 device) with
                       | Returns c => holds_Capture c
                       | Throws (CaptureException e) => holds_CaptureError e
                       | Throws (std_runtime_error _ _) => error
                       end) as Hretry.
  { intros error open h Hokh (bh & Hbh & Hidh) Hnot Hst Hc.
    destruct (update_session raw2 open rm self1 h request bh Hokh Hc Hbh)
      as (h' & Hupd & _ & Hn & Hb').
    exists h'. split; [done|]. split; [done|].
    unfold session_state, lock in *. rewrite Hb'. rewrite Hbh in Hst.
    injection Hst as Hst. simpl. f_equal.
    fold self2. rewrite polled_state_retry; rewrite ?Hidh, ?Hst; done. }
  split.
  - destruct (update_session raw1 open1 rm (manager w) (heap w) request b Hok Hc1 Hb)
      as (h1 & Hupd1 & Hok1 & Hn1 & Hb1). fold self1 in Hupd1, Hok1, Hb1.
    assert (session_state h1 request = Some (holds_CaptureError Error_WebcamUnplugged))
      as Hstate1.
    { unfold session_state, lock. rewrite Hb1. simpl. f_equal.
      unfold polled_state. rewrite Hid.
      destruct (is_plugged_in self1 device) eqn:Hplugged; [|done].
      apply is_plugged_in_update in Hplugged as (info & Hin & Hinfo).
      by destruct (Habsent info Hin). }
    destruct (Hretry (holds_CaptureError Error_WebcamUnplugged) open2 h1)
      as (h2 & Hupd2 & Hn2 & Hstate2); try done.
    { eexists. split; [done|]. done. }
    exists h1, h2. rewrite Hopen in Hstate2.
    repeat split; try done. congruence.
  - intros error open h Hokh Hlive Hst Hc.
    destruct (Hretry (holds_CaptureError error) open h)
      as (h' & Hupd & _ & Hstate'); try done.
    by exists h'.
Qed.

Lemma always_opens_contained : throws_only_CaptureException Scenario.always_opens.
Proof. intros device resolution hr code. discriminate. Qed.

Lemma X27_witness :
  let device := Scenario.Cam_A in
  let plugged := [mkInfo "Cam-A" device Scenario.Cam_A_caps] in
  let open := Scenario.always_opens in
  let history := [call_open_or_get_webcam device; call_update (Returns plugged) open] in
  let w := run history initial_world in
  let rm := resolutions_manager w in
  let self1 := mkManager (sort_infos []) (_current_requests (manager w)) in
  let self2 := mkManager (sort_infos plugged) (_current_requests (manager w)) in
  session_state (heap w) 0 = Some (holds_Capture (mkCapture (mkResolution 1280 720)))
  ∧ ∃ h1 h2,
      update (Returns []) open rm (manager w) (heap w) = (self1, h1, Returns tt)
      ∧ session_state h1 0 = Some (holds_CaptureError Error_WebcamUnplugged)
      ∧ update (Returns plugged) open rm self1 h1 = (self2, h2, Returns tt)
      ∧ session_state h2 0 = Some (holds_Capture (mkCapture (mkResolution 1280 720)))
      ∧ next_address h2 = next_address (heap w).
Proof.
  intros device plugged open history w rm self1 self2.
  assert (session_state (heap w) 0
          = Some (holds_Capture (mkCapture (mkResolution 1280 720)))) as Hactive
    by (vm_compute; reflexivity).
  split; [exact Hactive|].
  assert (live_session (heap w) device 0) as Hlive
    by (eexists; split; vm_compute; reflexivity).
  assert (open device (selected_resolution rm self2 device)
          = Returns (mkCapture (mkResolution 1280 720))) as Hopen
    by (vm_compute; reflexivity).
  refine (proj1 (X27_unplug_replug_in_completed_cycles history 0 device
                   (mkCapture (mkResolution 1280 720))
                   (mkCapture (mkResolution 1280 720))
                   [] plugged open open Hlive Hactive _ _
                   always_opens_contained always_opens_contained Hopen)).
  - intros info Hin. exact (False_ind _ (proj1 (elem_of_nil info) Hin)).
  - exists (mkInfo "Cam-A" device Scenario.Cam_A_caps). split; [left | reflexivity].
Defined.

(** C5, at inputs where the code leaves the transitions out.  A session
    for Cam-A holds a capture after the first cycle.

    In the second cycle Cam-A is unplugged and another device, Cam-B, is
    attached whose capture filter cannot be bound: the enumeration of
    src/internal/wcam_windows.cpp throws, the thread function is left
    before the third cycle, in which Cam-A is back, and the session holds
    its old capture throughout; it never goes to [Error_WebcamUnplugged].

    The same happens when the enumeration returns and the constructor of
    [Capture] throws the [std::runtime_error] for Cam-B, for which a
    second session exists: when the loop of [update] visits Cam-B first,
    the session of Cam-A keeps its capture; when it visits Cam-A first,
    the session goes to [Error_WebcamUnplugged] and, the loop being left,
    no later cycle brings it back. *)
Theorem C5_exception_ends_unplug_replug :
  let device := Scenario.Cam_A in
  let other := Scenario.Cam_B in
  let capture0 := mkCapture (mkResolution 1280 720) in
  let error := std_runtime_error E_FAIL "BindToObject" in
  let w0 := run [call_open_or_get_webcam device] initial_world in
  let plugged :=
    mkPollCycle (Scenario.attached [Scenario.webcam "Cam-A" "Cam-A" Scenario.Cam_A_caps])
                Scenario.always_opens in
  let unplugged :=
    mkPollCycle
      (Scenario.attached [Scenario.webcam_failing_BindToObject "Cam-B" "Cam-B"])
      Scenario.always_opens in
  let poll cycles :=
    thread_job internal_wcam_windows.grab_all_infos_impl cycles
               (resolutions_manager w0) fresh_thread (manager w0) (heap w0) in
  let w := run [call_open_or_get_webcam device;
                call_update (Returns [mkInfo "Cam-A" device Scenario.Cam_A_caps])
                            Scenario.always_opens;
                call_open_or_get_webcam other] initial_world in
  let self1 :=
    mkManager (sort_infos [mkInfo "Cam-B" other Scenario.Cam_A_caps])
              (_current_requests (manager w)) in
  let visit current_requests :=
    for_each_request current_requests (Scenario.opens_except other)
                     (resolutions_manager w) self1 (heap w) in
  ((poll [plugged]).2 = Returns tt
   ∧ session_state (poll [plugged]).1.2 0 = Some (holds_Capture capture0)
   ∧ (poll [plugged; unplugged; plugged]).2 = Throws error
   ∧ session_state (poll [plugged; unplugged; plugged]).1.2 0
     = Some (holds_Capture capture0))
  ∧ (session_state (heap w) 0 = Some (holds_Capture capture0)
     ∧ is_plugged_in self1 device = false
     ∧ (visit [(other, 1); (device, 0)]).2 = Throws error
     ∧ session_state (visit [(other, 1); (device, 0)]).1 0
       = Some (holds_Capture capture0)
     ∧ (visit [(device, 0); (other, 1)]).2 = Throws error
     ∧ session_state (visit [(device, 0); (other, 1)]).1 0
       = Some (holds_CaptureError Error_WebcamUnplugged)
     ∧ (update (Returns [mkInfo "Cam-B" other Scenario.Cam_A_caps])
               (Scenario.opens_except other)
               (resolutions_manager w) (manager w) (heap w)).2 = Throws error).
Proof.
  intros device other capture0 error w0 plugged unplugged poll w self1 visit.
  repeat split; vm_compute; reflexivity.
Qed.

(** ** Choosing a resolution *)

(** C7: [set_selected_resolution] with the stored value changes nothing,
    store and heap (so no restart); with another value, or none stored, it
    stores the value and, when a live session exists for the device,
    performs exactly one restart, which leaves that session not
    initialised and every other request as it was; when no live session
    exists the heap is unchanged (zero restarts). *)
Theorem C7_set_selected_resolution
    (device : DeviceId) (r : Resolution) (rm : ResolutionsManager)
    (manager_unchecked : option Manager) (h : Heap) :
  let '(rm', h') := set_selected_resolution device r rm manager_unchecked h in
  (_selected_resolutions rm !! device = Some r → rm' = rm ∧ h' = h)
  ∧ (_selected_resolutions rm !! device ≠ Some r →
     _selected_resolutions rm' = <[device := r]> (_selected_resolutions rm)
     ∧ (∀ p, live_session_exists manager_unchecked h device p →
          restarts h' = S (restarts h)
          ∧ session_state h' p = Some CaptureNotInitYet
          ∧ ∀ q, q ≠ p → blocks h' !! q = blocks h !! q)
     ∧ ((∀ p, ¬ live_session_exists manager_unchecked h device p) → h' = h)).
Proof.
  unfold set_selected_resolution. case_bool_decide as Hsame; simpl.
  - split; [done|]. by intros [].
  - split; [done|]. intros _. split; [done|]. split.
    + intros p (self & -> & Hreg & [request Hlock]).
      unfold request_a_restart_of_the_capture_if_it_exists.
      rewrite Hreg, Hlock. simpl. split; [done|]. split.
      * unfold session_state, lock in *; simpl.
        rewrite lookup_alter_eq. by destruct (blocks h !! p).
      * intros q Hq. by rewrite lookup_alter_ne.
    + intros Hnone. destruct manager_unchecked as [self|]; [|done].
      unfold request_a_restart_of_the_capture_if_it_exists.
      destruct (_current_requests self !! device) as [p|] eqn:Hreg; [|done].
      destruct (lock h p) as [request|] eqn:Hlock; [|done].
      destruct (Hnone p). exists self. by rewrite Hlock.
Qed.

Lemma C7_witness :
  let device := Scenario.Cam_A in
  let w := run [call_open_or_get_webcam device] initial_world in
  let rm := mkResolutionsManager {[device := mkResolution 640 480]} in
  let r := mkResolution 1280 720 in
  _selected_resolutions rm !! device ≠ Some r
  ∧ live_session_exists (Some (manager w)) (heap w) device 0
  ∧ restarts (set_selected_resolution device r rm (Some (manager w)) (heap w)).2 = 1
  ∧ restarts (set_selected_resolution device (mkResolution 640 480) rm
                (Some (manager w)) (heap w)).2 = 0.
Proof.
  intros device w rm r.
  assert (_selected_resolutions rm !! device ≠ Some r) as Hother by discriminate.
  assert (live_session_exists (Some (manager w)) (heap w) device 0) as Hlive.
  { exists (manager w). split; [done|]. split; [reflexivity | by eexists]. }
  split; [exact Hother|]. split; [exact Hlive|]. split.
  - pose proof (C7_set_selected_resolution device r rm (Some (manager w)) (heap w)) as H.
    destruct (set_selected_resolution device r rm (Some (manager w)) (heap w))
      as [rm' h'].
    destruct H as [_ H]. destruct (H Hother) as (_ & Hrestart & _).
    exact (proj1 (Hrestart 0 Hlive)).
  - pose proof (C7_set_selected_resolution device (mkResolution 640 480) rm
                  (Some (manager w)) (heap w)) as H.
    destruct (set_selected_resolution device (mkResolution 640 480) rm
                (Some (manager w)) (heap w)) as [rm' h'].
    destruct H as [H _]. by destruct (H eq_refl) as [_ ->].
Defined.

(** ** Failures that leave the poll loop *)

(** C2 (what the code does at the failing input): with the back end of
    src/internal/wcam_windows.cpp, one device whose [BindToObject] fails
    makes the enumeration throw; the exception leaves [update] and
    [thread_job] in the first of two cycles, the snapshot stays empty, and
    the healthy device Cam-B, for which a session is waiting, is neither
    discovered nor serviced.  The earlier back end skips the failing device
    on the same answers.  Likewise a [std::runtime_error] thrown by the
    constructor of [Capture] for Cam-A is not caught and ends the loop. *)
Theorem C2_failure_of_one_device_ends_the_poll_loop :
  let broken := Scenario.webcam_failing_BindToObject "Cam-A" "Cam-A" in
  let healthy := Scenario.webcam "Cam-B" "Cam-B" Scenario.Cam_A_caps in
  let cycle := mkPollCycle (Scenario.attached [broken; healthy]) Scenario.always_opens in
  let w := run [call_open_or_get_webcam Scenario.Cam_B] initial_world in
  let rm := resolutions_manager w in
  let run_thread impl cycles := thread_job impl cycles rm fresh_thread (manager w) (heap w) in
  ((run_thread internal_wcam_windows.grab_all_infos_impl [cycle; cycle]).2
   = Throws (std_runtime_error E_FAIL "BindToObject")
   ∧ _infos (run_thread internal_wcam_windows.grab_all_infos_impl [cycle; cycle]).1.1.2 = []
   ∧ session_state (run_thread internal_wcam_windows.grab_all_infos_impl [cycle; cycle]).1.2 0
     = Some CaptureNotInitYet)
  ∧ ((run_thread wcam_windows.grab_all_infos_impl [cycle; cycle]).2 = Returns tt
     ∧ is_plugged_in (run_thread wcam_windows.grab_all_infos_impl [cycle; cycle]).1.1.2
                     Scenario.Cam_B = true
     ∧ session_state (run_thread wcam_windows.grab_all_infos_impl [cycle; cycle]).1.2 0
       = Some (holds_Capture (mkCapture (mkResolution 1280 720))))
  ∧ let both := Scenario.attached [Scenario.webcam "Cam-A" "Cam-A" Scenario.Cam_A_caps;
                                   healthy] in
    let cycle' := mkPollCycle both (Scenario.opens_except Scenario.Cam_A) in
    let w' := run [call_open_or_get_webcam Scenario.Cam_A;
                   call_open_or_get_webcam Scenario.Cam_B] initial_world in
    (thread_job wcam_windows.grab_all_infos_impl [cycle'; cycle']
       rm fresh_thread (manager w') (heap w')).2
    = Throws (std_runtime_error E_FAIL "BindToObject").
Proof. vm_compute. repeat split; reflexivity. Qed.

(** The poll loop runs to its end when every enumeration returns and no
    constructor of [Capture] throws anything but [CaptureException]. *)
Lemma thread_job_completes impl cycles rm tl self h :
  Forall (λ cycle, (∀ tl0, ∃ out, (impl (devices cycle) tl0).2 = Returns out)
                   ∧ throws_only_CaptureException (Capture_new cycle)) cycles →
  registry_ok self h →
  (thread_job impl cycles rm tl self h).2 = Returns tt.
Proof.
  intros Hcycles. revert tl self h.
  induction Hcycles as [|cycle cycles [Himpl Hopen] _ IH]; intros tl self h Hok;
    simpl; [done|].
  destruct (Himpl tl) as [out Hout].
  destruct (impl (devices cycle) tl) as [tl' result]. simpl in Hout. subst result.
  pose proof (update_same_owners (Returns out) (Capture_new cycle) rm self h) as Hso.
  destruct (update_polls out (Capture_new cycle) rm self h Hok Hopen)
    as (h' & Hupd & _).
  rewrite Hupd in Hso |- *. simpl in Hso.
  apply IH. by eapply (registry_ok_same_owners self).
Qed.

Lemma wcam_windows_grab_all_infos_impl_returns env tl :
  FAILED (CoInitializeEx env) = false →
  ∃ out, (wcam_windows.grab_all_infos_impl env tl).2 = Returns out.
Proof.
  intros Hco. unfold wcam_windows.grab_all_infos_impl, CoInitializeIFN, THROW_IF_ERR.
  rewrite Hco.
  destruct (com_initialized tl); destruct (SUCCEEDED _);
    try destruct (wcam_windows.get_devices_info _ _ _); by eexists.
Qed.

(** With the earlier back end, which skips what fails, the loop is only
    left through [_wants_to_stop_thread]. *)
Lemma wcam_windows_thread_job_completes cycles rm tl self h :
  Forall (λ cycle, FAILED (CoInitializeEx (devices cycle)) = false
                   ∧ throws_only_CaptureException (Capture_new cycle)) cycles →
  registry_ok self h →
  (thread_job wcam_windows.grab_all_infos_impl cycles rm tl self h).2 = Returns tt.
Proof.
  intros Hcycles. apply thread_job_completes.
  eapply Forall_impl; [exact Hcycles|].
  intros cycle [Hco Hopen]. split; [|done].
  intros tl0. by apply wcam_windows_grab_all_infos_impl_returns.
Qed.

(** * Further properties of the code *)

(** ** Sorting and deduplication on any input *)

Lemma unique_from_sorted {A} `{EqDecision A} (R : relation A) (x : A) l :
  StronglySorted R (x :: l) → StronglySorted R (unique_from x l).
Proof.
  revert x; induction l as [|y l IH]; intros x Hs; simpl; [done|].
  apply StronglySorted_inv in Hs as [Hs Hx].
  case_decide as Hxy.
  - subst y. by apply IH.
  - constructor; [by apply IH|].
    apply Forall_forall. intros z Hz%elem_of_unique_from.
    by eapply Forall_forall in Hx.
Qed.

Lemma unique_from_adjacent {A} `{EqDecision A} (x : A) l i a b :
  unique_from x l !! i = Some a → unique_from x l !! S i = Some b → a ≠ b.
Proof.
  revert x i; induction l as [|y l IH]; intros x i; simpl.
  - destruct i; [done|]. by rewrite lookup_nil.
  - case_decide as Hxy; [apply IH|].
    destruct i as [|i]; simpl; [|apply IH].
    intros [= <-]. destruct (unique_from_head y l) as [l' ->]. simpl.
    by intros [= <-].
Qed.

Lemma unique_from_length {A} `{EqDecision A} (x : A) l :
  length (unique_from x l) ≤ S (length l).
Proof.
  revert x; induction l as [|y l IH]; intros x; simpl; [done|].
  case_decide; [specialize (IH x) | specialize (IH y); simpl]; lia.
Qed.

(** X1: whatever the resolutions (zero widths included) and whatever order
    [std::sort] leaves equivalent entries in, the list stored by
    [grab_all_infos] is weakly sorted best-first, has no two adjacent equal
    entries, has exactly the entries reported, and is not longer than the
    reported list. *)
Theorem X1_sort_and_deduplicate_any_input (rs l' : list Resolution) :
  std_sort_spec res_before rs l' →
  StronglySorted res_not_after (std_unique l')
  ∧ (∀ i a b, std_unique l' !! i = Some a → std_unique l' !! S i = Some b → a ≠ b)
  ∧ (∀ r, r ∈ std_unique l' ↔ r ∈ rs)
  ∧ length (std_unique l') ≤ length rs.
Proof.
  intros [Hperm Hsorted].
  apply (Sorted_StronglySorted res_not_after) in Hsorted.
  split; [|split; [|split]].
  - destruct l' as [|x l']; simpl; [constructor | by apply unique_from_sorted].
  - intros i a b. destruct l' as [|x l']; simpl; [by rewrite lookup_nil|].
    apply unique_from_adjacent.
  - intros r. by rewrite elem_of_std_unique, Hperm.
  - rewrite <-(Permutation_length Hperm).
    destruct l' as [|x l']; simpl; [done | apply unique_from_length].
Qed.

Lemma X1_witness :
  let rs := [mkResolution 0 5; mkResolution 1280 720; mkResolution 0 7;
             mkResolution 0 5] in
  std_sort_spec res_before rs (std_sort res_before rs)
  ∧ StronglySorted res_not_after (sort_and_deduplicate rs)
  ∧ length (sort_and_deduplicate rs) ≤ length rs.
Proof.
  intros rs.
  pose proof (std_sort_meets_spec res_before res_before_asym rs) as Hspec.
  split; [exact Hspec|].
  destruct (X1_sort_and_deduplicate_any_input rs _ Hspec) as (Hs & _ & _ & Hlen).
  split; [exact Hs | exact Hlen].
Defined.

(** ** The resolution store *)

(** X2: after [set_selected_resolution device r], [selected_resolution]
    answers [r] for the device whatever the snapshot (the device may be
    unplugged, [r] may be none of its resolutions), and answers for every
    other device what it answered before. *)
Theorem X2_selected_resolution_after_set
    (device other : DeviceId) (r : Resolution) (rm : ResolutionsManager)
    (manager_unchecked : option Manager) (h : Heap) (self : Manager) :
  let rm' := (set_selected_resolution device r rm manager_unchecked h).1 in
  selected_resolution rm' self device = r
  ∧ (other ≠ device →
     selected_resolution rm' self other = selected_resolution rm self other).
Proof.
  unfold set_selected_resolution, selected_resolution.
  case_bool_decide as Hsame; simpl.
  - by rewrite Hsame.
  - rewrite lookup_insert_eq. split; [done|]. intros Hne.
    by rewrite lookup_insert_ne.
Qed.

(** X3: [set_selected_resolution] called a second time with the same
    arguments changes nothing: neither the store nor the heap, so no second
    restart. *)
Theorem X3_set_selected_resolution_twice
    (device : DeviceId) (r : Resolution) (rm : ResolutionsManager)
    (manager_unchecked : option Manager) (h : Heap) :
  let '(rm1, h1) := set_selected_resolution device r rm manager_unchecked h in
  set_selected_resolution device r rm1 manager_unchecked h1 = (rm1, h1).
Proof.
  unfold set_selected_resolution at 1.
  case_bool_decide as Hsame; simpl.
  - unfold set_selected_resolution. by rewrite bool_decide_eq_true_2.
  - unfold set_selected_resolution; simpl.
    by rewrite bool_decide_eq_true_2 by apply lookup_insert_eq.
Qed.

(** ** More on the poll cycle *)



Lemma for_each_request_keeps_active entries Capture_new rm self h p b :
  blocks h !! p = Some b →
  holds_alternative_Capture (maybe_capture (object b)) = true →
  is_plugged_in self (request_id (object b)) = true →
  blocks (for_each_request entries Capture_new rm self h).1 !! p = Some b.
Proof.
  intros Hb Hactive Hplugged. revert h Hb.
  induction entries as [|[d p0] entries IH]; intros h Hb; simpl; [done|].
  unfold lock.
  destruct (decide (p0 = p)) as [->|Hne].
  - rewrite Hb. simpl. rewrite Hplugged, Hactive. simpl. by apply IH.
  - assert (∀ v, blocks (assign_maybe_capture p0 v h) !! p = Some b) as Hassign.
    { intros v. rewrite assign_maybe_capture_lookup. by rewrite decide_False. }
    destruct (blocks h !! p0) as [b0|]; simpl; [|by apply IH].
    destruct (negb (is_plugged_in self (request_id (object b0)))); [by apply IH|].
    destruct (holds_alternative_Capture (maybe_capture (object b0))); [by apply IH|].
    destruct (Capture_new _ _) as [capture|[hr code|capture_error]];
      [by apply IH | done | by apply IH].
Qed.

(** X5: a request that holds a capture and whose device is in the fresh
    enumeration is left exactly as it is by the poll cycle (same capture,
    same owners): a healthy session is never reopened, whatever happens to
    the other devices, exceptions included. *)
Theorem X5_active_session_is_left_alone
    (raw : list Info) (open : DeviceId → Resolution → outcome Capture)
    (rm : ResolutionsManager) (self : Manager) (h : Heap) (p : nat) (b : ControlBlock) :
  blocks h !! p = Some b →
  holds_alternative_Capture (maybe_capture (object b)) = true →
  (∃ info, info ∈ raw ∧ id info = request_id (object b)) →
  blocks (update (Returns raw) open rm self h).1.2 !! p = Some b.
Proof.
  intros Hb Hactive Hpresent. unfold update; simpl.
  pose proof (for_each_request_keeps_active
                (map_to_list (_current_requests self)) open rm
                (mkManager (sort_infos raw) (_current_requests self)) h p b
                Hb Hactive) as Hkeep.
  destruct (for_each_request _ _ _ _ _) as [h' result]; simpl in *.
  apply Hkeep. by apply is_plugged_in_update.
Qed.

Lemma X5_witness :
  let device := Scenario.Cam_A in
  let plugged := [mkInfo "Cam-A" device Scenario.Cam_A_caps] in
  let w := run [call_open_or_get_webcam device;
                call_update (Returns plugged) Scenario.always_opens] initial_world in
  let b := mkControlBlock
             (mkWebcamRequest device (holds_Capture (mkCapture (mkResolution 1280 720)))) 1 in
  blocks (heap w) !! 0 = Some b
  ∧ blocks (update (Returns plugged) (Scenario.opens_except device)
              (resolutions_manager w) (manager w) (heap w)).1.2 !! 0 = Some b.
Proof.
  intros device plugged w b.
  assert (blocks (heap w) !! 0 = Some b) as Hb by (vm_compute; reflexivity).
  split; [exact Hb|].
  apply (X5_active_session_is_left_alone plugged (Scenario.opens_except device)
           (resolutions_manager w) (manager w) (heap w) 0 b Hb eq_refl).
  exists (mkInfo "Cam-A" device Scenario.Cam_A_caps). split; [left | reflexivity].
Defined.

(** X4: when a call [set_selected_resolution device r] with a new value
    has returned before a poll cycle starts, with a live session for the
    device and the device in that cycle's enumeration, the cycle
    constructs the capture at [r] and records the outcome, whatever the
    session held before (a capture at another resolution included).  The
    call and the cycle are taken one after the other: nothing orders the
    store of [_selected_resolutions] and the assignment of Manager.cpp:142
    against a call made while the poller is inside the constructor, and
    the statement says nothing of such a call. *)
Theorem X4_new_resolution_takes_effect
    (self : Manager) (h : Heap) (rm : ResolutionsManager) (device : DeviceId)
    (r : Resolution) (p : nat) (raw : list Info)
    (open : DeviceId → Resolution → outcome Capture) :
  registry_ok self h →
  live_session_exists (Some self) h device p →
  _selected_resolutions rm !! device ≠ Some r →
  (∃ info, info ∈ raw ∧ id info = device) →
  throws_only_CaptureException open →
  let '(rm', h') := set_selected_resolution device r rm (Some self) h in
  ∃ h'', update (Returns raw) open rm' self h'
         = (mkManager (sort_infos raw) (_current_requests self), h'', Returns tt)
    ∧ session_state h'' p
      = Some match open device r with
             | Returns capture => holds_Capture capture
             | Throws (CaptureException error) => holds_CaptureError error
             | Throws (std_runtime_error _ _) => CaptureNotInitYet
             end.
Proof.
  intros Hok (self0 & [= <-] & Hreg & [request Hlock]) Hnew Hpresent Hcontained.
  unfold lock in Hlock.
  destruct (blocks h !! p) as [b|] eqn:Hb; [|done].
  pose proof (registered_for_device _ _ Hok _ _ _ Hreg Hb) as Hid.
  pose proof (set_selected_resolution_same_owners device r rm (Some self) h) as Hso.
  unfold set_selected_resolution in *.
  rewrite bool_decide_eq_false_2 in * by done. simpl in *.
  set (rm' := mkResolutionsManager (<[device:=r]> (_selected_resolutions rm))).
  set (h' := request_a_restart_of_the_capture_if_it_exists device self h) in *.
  assert (blocks h' !! p
          = Some (mkControlBlock (mkWebcamRequest (request_id (object b))
                                                  CaptureNotInitYet) (use_count b)))
    as Hb'.
  { unfold h', request_a_restart_of_the_capture_if_it_exists, lock.
    rewrite Hreg, Hb. simpl. by rewrite lookup_alter_eq, Hb. }
  assert (registry_ok self h') as Hok' by by eapply registry_ok_same_owners.
  destruct (update_session raw open rm' self h' p _ Hok' Hcontained Hb')
    as (h'' & Hupd & _ & _ & Hb'').
  exists h''. split; [done|].
  unfold session_state, lock. rewrite Hb''. simpl. f_equal.
  rewrite polled_state_retry; simpl; rewrite ?Hid.
  - unfold selected_resolution, rm'. simpl. by rewrite lookup_insert_eq.
  - by apply is_plugged_in_update.
  - done.
Qed.

Lemma X4_witness :
  let device := Scenario.Cam_A in
  let plugged := [mkInfo "Cam-A" device Scenario.Cam_A_caps] in
  let w := run [call_open_or_get_webcam device;
                call_update (Returns plugged) Scenario.always_opens] initial_world in
  let r := mkResolution 640 480 in
  session_state (heap w) 0 = Some (holds_Capture (mkCapture (mkResolution 1280 720)))
  ∧ let '(rm', h') :=
      set_selected_resolution device r (resolutions_manager w) (Some (manager w)) (heap w) in
    ∃ h'', update (Returns plugged) Scenario.always_opens rm' (manager w) h'
           = (mkManager (sort_infos plugged) (_current_requests (manager w)), h'',
              Returns tt)
      ∧ session_state h'' 0 = Some (holds_Capture (mkCapture r)).
Proof.
  intros device plugged w r.
  split; [vm_compute; reflexivity|].
  apply (X4_new_resolution_takes_effect (manager w) (heap w) (resolutions_manager w)
           device r 0 plugged Scenario.always_opens).
  - apply (run_registry_ok _ initial_world initial_world_ok).
  - exists (manager w). split; [reflexivity|].
    split; [vm_compute; reflexivity | by eexists].
  - intros Hsel. vm_compute in Hsel. discriminate Hsel.
  - exists (mkInfo "Cam-A" device Scenario.Cam_A_caps). split; [left | reflexivity].
  - exact always_opens_contained.
Defined.

Lemma for_each_request_ext entries open1 open2 rm self h :
  (∀ device resolution, needs_open self h device →
     open1 device resolution = open2 device resolution) →
  for_each_request entries open1 rm self h = for_each_request entries open2 rm self h.
Proof.
  revert h. induction entries as [|[d p0] entries IH]; intros h Hagree; simpl; [done|].
  unfold lock.
  destruct (blocks h !! p0) as [b0|] eqn:Hb0; simpl; [|by apply IH].
  destruct (is_plugged_in self (request_id (object b0))) eqn:Hplugged; simpl.
  2:{ apply IH. intros device resolution (p & b & Hb & Hid & Hpl & Hstate).
      apply Hagree. rewrite assign_maybe_capture_lookup in Hb.
      case_decide; [subst p|by exists p, b].
      rewrite Hb0 in Hb. injection Hb as <-. simpl in *. congruence. }
  destruct (holds_alternative_Capture (maybe_capture (object b0))) eqn:Hstate0;
    [by apply IH|].
  rewrite <-(Hagree (request_id (object b0))) by by exists p0, b0.
  assert (∀ v device resolution,
            needs_open self (assign_maybe_capture p0 v h) device →
            open1 device resolution = open2 device resolution) as Hagree'.
  { intros v device resolution (p & b & Hb & Hid & Hpl & Hstate).
    apply Hagree. rewrite assign_maybe_capture_lookup in Hb.
    case_decide; [subst p|by exists p, b].
    rewrite Hb0 in Hb. injection Hb as <-. simpl in *. by exists p0, b0. }
  destruct (open1 _ _) as [capture|[hr code|capture_error]];
    [apply IH, Hagree' | done | apply IH, Hagree'].
Qed.

(** X9: a poll cycle consults the constructor of [Capture] only for the
    devices that have a live request, are in the fresh snapshot and hold no
    capture: two constructors that agree on those devices give the same
    cycle.  In particular no hardware is opened for a device nobody holds
    or whose session is healthy. *)
Theorem X9_update_opens_only_what_is_needed
    (raw : list Info) (open1 open2 : DeviceId → Resolution → outcome Capture)
    (rm : ResolutionsManager) (self : Manager) (h : Heap) :
  (∀ device resolution,
     needs_open (mkManager (sort_infos raw) (_current_requests self)) h device →
     open1 device resolution = open2 device resolution) →
  update (Returns raw) open1 rm self h = update (Returns raw) open2 rm self h.
Proof.
  intros Hagree. unfold update; simpl.
  by rewrite (for_each_request_ext _ open1 open2 rm _ h Hagree).
Qed.

Lemma X9_witness :
  let device := Scenario.Cam_A in
  let plugged := [mkInfo "Cam-A" device Scenario.Cam_A_caps] in
  let w := run [call_open_or_get_webcam device;
                call_update (Returns plugged) Scenario.always_opens] initial_world in
  update (Returns plugged) Scenario.always_opens
         (resolutions_manager w) (manager w) (heap w)
  = update (Returns plugged) (Scenario.opens_except device)
           (resolutions_manager w) (manager w) (heap w).
Proof.
  intros device plugged w.
  apply X9_update_opens_only_what_is_needed.
  intros d resolution (p & b & Hb & _ & _ & Hstate).
  destruct (run_registry_ok
              [call_open_or_get_webcam device;
               call_update (Returns plugged) Scenario.always_opens]
              initial_world initial_world_ok) as [Hok _].
  pose proof (live_below_next _ _ Hok p b Hb) as Hp.
  assert (p = 0) as -> by (vm_compute in Hp; lia).
  vm_compute in Hb. injection Hb as <-. discriminate Hstate.
Defined.

(** ** The registry over time *)

Lemma step_registry_grows w c device :
  is_Some (_current_requests (manager w) !! device) →
  is_Some (_current_requests (manager (step w c)) !! device).
Proof.
  intros Hreg.
  destruct c as [d|p|p|d|d resolution|impl open]; simpl; try done.
  - destruct (open_or_get_webcam_cases d (manager w) (heap w))
      as [(p & _ & _ & ->) | [_ ->]]; simpl; [done|].
    rewrite lookup_insert. by case_decide.
  - by destruct (set_selected_resolution _ _ _ _ _).
  - rewrite <-(proj2 (update_snapshot impl open (resolutions_manager w)
                        (manager w) (heap w))) in Hreg.
    by destruct (update _ _ _ _ _) as [[? ?] ?].
Qed.

Lemma step_registry_size w c :
  size (_current_requests (manager (step w c)))
  ≤ size (_current_requests (manager w)) + (if is_open_or_get_webcam c then 1 else 0).
Proof.
  destruct c as [d|p|p|d|d resolution|impl open]; simpl; try lia.
  - destruct (open_or_get_webcam_cases d (manager w) (heap w))
      as [(p & _ & _ & ->) | [_ ->]]; simpl; [lia|].
    destruct (_current_requests (manager w) !! d) eqn:Hd.
    + rewrite map_size_insert_Some by done. lia.
    + rewrite map_size_insert_None by done. lia.
  - destruct (set_selected_resolution _ _ _ _ _). simpl. lia.
  - pose proof (proj2 (update_snapshot impl open (resolutions_manager w)
                         (manager w) (heap w))) as Hreg.
    destruct (update _ _ _ _ _) as [[? ?] ?]. simpl in *. rewrite Hreg. lia.
Qed.

(** X7: the registry never forgets a device: an entry of
    [_current_requests] survives every later call, the destruction of its
    session included, and the map grows by at most one entry per call of
    [open_or_get_webcam].  Acquiring a device the registry does not know and
    dropping the handle leaves a stale entry behind. *)
Theorem X7_registry_never_shrinks (history : list Call) (w : World) (device : DeviceId) :
  (is_Some (_current_requests (manager w) !! device) →
   is_Some (_current_requests (manager (run history w)) !! device))
  ∧ size (_current_requests (manager (run history w)))
    ≤ size (_current_requests (manager w))
      + length (filter (λ c, is_open_or_get_webcam c = true) history)
  ∧ (_current_requests (manager w) !! device = None →
     let w' := run [call_open_or_get_webcam device;
                    call_drop_SharedWebcam (next_address (heap w))] w in
     _current_requests (manager w') !! device = Some (next_address (heap w))
     ∧ lock (heap w') (next_address (heap w)) = None).
Proof.
  split; [|split].
  - revert w. unfold run.
    induction history as [|c history IH]; intros w Hreg; simpl; [done|].
    by apply IH, step_registry_grows.
  - revert w. unfold run.
    induction history as [|c history IH]; intros w; simpl; [lia|].
    specialize (IH (step w c)). pose proof (step_registry_size w c) as Hstep.
    rewrite filter_cons. case_decide as Hc.
    + rewrite Hc in Hstep. simpl. lia.
    + apply not_true_is_false in Hc. rewrite Hc in Hstep. lia.
  - intros Hnone. unfold run; simpl.
    rewrite open_or_get_webcam_stale by (intros p; by rewrite Hnone).
    unfold create_request, make_shared, shared_ptr_release, lock; simpl.
    rewrite !lookup_insert_eq. simpl.
    by rewrite lookup_delete_eq.
Qed.

(** X8: acquiring a device whose session is alive and dropping the handle
    again is a round trip: the same request is handed out, the manager is
    unchanged and the heap is back to what it was. *)
Theorem X8_acquire_then_drop_is_a_round_trip
    (self : Manager) (h : Heap) (device : DeviceId) (p : nat) :
  registry_ok self h →
  _current_requests self !! device = Some p →
  is_Some (lock h p) →
  let '(request, self', h') := open_or_get_webcam device self h in
  request = p ∧ self' = self ∧ shared_ptr_release request h' = h.
Proof.
  intros Hok Hreg [b Hb]%lock_is_Some.
  rewrite (open_or_get_webcam_live device self h p Hreg) by by eexists.
  split; [done|]. split; [done|].
  pose proof (live_is_owned _ _ Hok _ _ Hb) as Hcount.
  unfold shared_ptr_release, shared_ptr_copy; simpl.
  rewrite lookup_alter_eq, Hb. simpl.
  rewrite decide_False by lia. simpl.
  destruct h as [bs next rs]; simpl in *. f_equal.
  apply map_eq. intros q. rewrite lookup_insert.
  case_decide; [subst q|by rewrite lookup_alter_ne].
  rewrite Hb. by destruct b.
Qed.

Lemma X8_witness :
  let device := Scenario.Cam_A in
  let w := run [call_open_or_get_webcam device] initial_world in
  (_current_requests (manager w) !! device = Some 0 ∧ is_Some (lock (heap w) 0))
  ∧ let '(request, self', h') := open_or_get_webcam device (manager w) (heap w) in
    request = 0 ∧ self' = manager w ∧ shared_ptr_release request h' = heap w.
Proof.
  intros device w.
  assert (_current_requests (manager w) !! device = Some 0) as Hreg
    by (vm_compute; reflexivity).
  assert (is_Some (lock (heap w) 0)) as Hlive by (by eexists).
  split; [by split|].
  apply (X8_acquire_then_drop_is_a_round_trip (manager w) (heap w) device 0);
    [|exact Hreg|exact Hlive].
  apply (run_registry_ok _ initial_world initial_world_ok).
Defined.

(** ** The poll loop *)

(** X10: running the loop over [cycles1 ++ cycles2] is running it over
    [cycles1] and, only if that came to its end without an exception, over
    [cycles2] from the state reached; after an exception no later cycle
    runs. *)
Theorem X10_thread_job_app
    (impl : SystemDeviceEnum → ThreadLocal → ThreadLocal * outcome (list Info))
    (cycles1 cycles2 : list PollCycle) (rm : ResolutionsManager)
    (tl : ThreadLocal) (self : Manager) (h : Heap) :
  thread_job impl (cycles1 ++ cycles2) rm tl self h
  = match thread_job impl cycles1 rm tl self h with
    | (tl', self', h', Returns _) => thread_job impl cycles2 rm tl' self' h'
    | (tl', self', h', Throws e) => (tl', self', h', Throws e)
    end.
Proof.
  revert tl self h.
  induction cycles1 as [|cycle cycles1 IH]; intros tl self h; simpl; [done|].
  destruct (impl (devices cycle) tl) as [tl' result].
  destruct (update result (Capture_new cycle) rm self h) as [[self' h'] [[]|e]];
    [apply IH | done].
Qed.

(** X11: the earlier back end throws in exactly one case, a failing
    [CoInitializeEx] on a thread where COM is not initialised yet; every
    other failure (creating the enumerator, binding a moniker, reading its
    name, querying its pins) is swallowed. *)
Theorem X11_wcam_windows_throws_only_for_CoInitializeEx
    (env : SystemDeviceEnum) (tl : ThreadLocal) (e : exception) :
  (wcam_windows.grab_all_infos_impl env tl).2 = Throws e
  ↔ com_initialized tl = false ∧ FAILED (CoInitializeEx env) = true
    ∧ e = std_runtime_error (CoInitializeEx env) "CoInitializeEx".
Proof.
  unfold wcam_windows.grab_all_infos_impl, CoInitializeIFN, THROW_IF_ERR.
  destruct (com_initialized tl); destruct (FAILED (CoInitializeEx env)); simpl;
    try destruct (SUCCEEDED _);
    try destruct (wcam_windows.get_devices_info _ _ _); simpl;
    split; try done; try (by intros (? & ? & ?)).
  - intros [= <-]. done.
  - by intros (_ & _ & ->).
Qed.

(** X12: with the earlier back end the poll loop runs through all its
    cycles, whichever [HRESULT]s the devices answer, as long as
    [CoInitializeEx] does not fail, no friendly name converts to the empty
    string (where [convert_wstr_to_str] would reach its [assert(false)])
    and the constructor of [Capture] throws nothing but
    [CaptureException]: failures of single devices are skipped or recorded
    in their sessions. *)
Theorem X12_wcam_windows_poll_loop_completes
    (cycles : list PollCycle) (rm : ResolutionsManager) (tl : ThreadLocal)
    (self : Manager) (h : Heap) :
  Forall (λ cycle, FAILED (CoInitializeEx (devices cycle)) = false
                   ∧ no_empty_FriendlyName (devices cycle)
                   ∧ throws_only_CaptureException (Capture_new cycle)) cycles →
  registry_ok self h →
  (thread_job wcam_windows.grab_all_infos_impl cycles rm tl self h).2 = Returns tt.
Proof.
  intros Hcycles. apply thread_job_completes.
  eapply Forall_impl; [exact Hcycles|].
  intros cycle (Hco & _ & Hopen). split; [|done].
  intros tl0. by apply wcam_windows_grab_all_infos_impl_returns.
Qed.

Lemma X12_witness :
  let cycle :=
    mkPollCycle
      (Scenario.attached [Scenario.webcam_failing_BindToObject "Cam-A" "Cam-A";
                          Scenario.webcam "Cam-B" "Cam-B" Scenario.Cam_A_caps])
      (λ _ _, Throws (CaptureException Error_WebcamAlreadyUsedInAnotherApplication)) in
  let w := run [call_open_or_get_webcam Scenario.Cam_B] initial_world in
  (thread_job wcam_windows.grab_all_infos_impl [cycle; cycle]
     (resolutions_manager w) fresh_thread (manager w) (heap w)).2 = Returns tt.
Proof.
  intros cycle w.
  apply X12_wcam_windows_poll_loop_completes.
  - repeat constructor; try discriminate; intros device resolution hr code; discriminate.
  - apply (run_registry_ok _ initial_world initial_world_ok).
Defined.

(** ** COM initialisation and the enumerator *)

(** X13: in both back ends COM is initialised at most once per thread: once
    [com_initialized] holds, the answer of [CoInitializeEx] is not consulted
    and the flag stays set; and an enumeration that returns leaves the flag
    set. *)
Theorem X13_COM_is_initialised_once
    (impl : SystemDeviceEnum → ThreadLocal → ThreadLocal * outcome (list Info))
    (env : SystemDeviceEnum) (tl : ThreadLocal) :
  impl = internal_wcam_windows.grab_all_infos_impl
  ∨ impl = wcam_windows.grab_all_infos_impl →
  (com_initialized tl = true →
   com_initialized (impl env tl).1 = true
   ∧ ∀ hr, impl (with_CoInitializeEx hr env) tl = impl env tl)
  ∧ (∀ out, (impl env tl).2 = Returns out → com_initialized (impl env tl).1 = true).
Proof.
  intros [-> | ->].
  - unfold internal_wcam_windows.grab_all_infos_impl, CoInitializeIFN, THROW_IF_ERR.
    split.
    + intros Hinit. rewrite Hinit. simpl. split; [|done].
      destruct (FAILED (CoCreateInstance env)); simpl; [done|].
      destruct (FAILED (CreateClassEnumerator env)); simpl; [done|].
      destruct (video_input_devices env); [|done].
      by destruct (internal_wcam_windows.while_next_moniker _ _ _).
    + intros out.
      destruct (com_initialized tl) eqn:Hinit;
        [|destruct (FAILED (CoInitializeEx env)); [done|]]; simpl;
        (destruct (FAILED (CoCreateInstance env)); simpl; [done|]);
        (destruct (FAILED (CreateClassEnumerator env)); simpl; [done|]);
        (destruct (video_input_devices env); [|done]);
        by destruct (internal_wcam_windows.while_next_moniker _ _ _).
  - unfold wcam_windows.grab_all_infos_impl, CoInitializeIFN, THROW_IF_ERR.
    split.
    + intros Hinit. rewrite Hinit. simpl. split; [|done].
      destruct (SUCCEEDED _); [|done].
      by destruct (wcam_windows.get_devices_info _ _ _).
    + intros out.
      destruct (com_initialized tl) eqn:Hinit;
        [|destruct (FAILED (CoInitializeEx env)); [done|]]; simpl;
        (destruct (SUCCEEDED _); [|done]);
        by destruct (wcam_windows.get_devices_info _ _ _).
Qed.

Lemma X13_witness :
  let impl := wcam_windows.grab_all_infos_impl in
  let env := Scenario.attached [] in
  let tl := (impl env fresh_thread).1 in
  com_initialized tl = true
  ∧ impl (with_CoInitializeEx E_FAIL env) tl = impl env tl.
Proof.
  intros impl env tl.
  assert (com_initialized tl = true) as Hinit by reflexivity.
  split; [exact Hinit|].
  exact (proj2 (proj1 (X13_COM_is_initialised_once impl env tl (or_intror eq_refl))
                  Hinit) E_FAIL).
Defined.

(** X14: [enumerate_devices] never answers [S_FALSE]: an empty category is
    turned into the failure [VFW_E_NOT_FOUND]; it succeeds exactly when
    both calls succeed and an enumerator was created. *)
Theorem X14_enumerate_devices (env : SystemDeviceEnum) :
  wcam_windows.enumerate_devices env ≠ S_FALSE
  ∧ (SUCCEEDED (wcam_windows.enumerate_devices env) = true
     ↔ SUCCEEDED (CoCreateInstance env) = true
       ∧ SUCCEEDED (CreateClassEnumerator env) = true
       ∧ CreateClassEnumerator env ≠ S_FALSE).
Proof.
  unfold wcam_windows.enumerate_devices, SUCCEEDED, S_FALSE, VFW_E_NOT_FOUND.
  destruct (0 <=? CoCreateInstance env)%Z eqn:Hco.
  - case_decide as Hs.
    + rewrite Hs. split; [done|]. split; [done|]. by intros (_ & _ & ?).
    + split; [done|]. split; [by intros ?|by intros (_ & ? & _)].
  - apply Z.leb_gt in Hco. split; [lia|].
    split; [intros ?%Z.leb_le; lia | by intros (? & _)].
Qed.

(** ** Querying the pins *)

Lemma for_each_capability_agree caps acc rs :
  internal_wcam_windows.for_each_capability caps acc = Returns rs →
  wcam_windows.for_each_capability caps acc = rs.
Proof.
  revert acc. induction caps as [|c caps IH]; intros acc; simpl.
  - by intros [= <-].
  - unfold THROW_IF_ERR, FAILED, SUCCEEDED.
    destruct (GetStreamCaps c <? 0)%Z eqn:Hhr; simpl; [done|].
    apply Z.ltb_ge in Hhr. rewrite (proj2 (Z.leb_le _ _) Hhr). simpl.
    destruct (formattype_is_VideoInfo c); apply IH.
Qed.

Lemma while_next_pin_agree ps acc rs :
  internal_wcam_windows.while_next_pin ps acc = Returns rs →
  wcam_windows.while_next_pin ps acc = rs.
Proof.
  revert acc. induction ps as [|pin ps IH]; intros acc; simpl.
  - by intros [= <-].
  - case_decide; [|apply IH].
    unfold THROW_IF_ERR, FAILED, SUCCEEDED.
    destruct (QueryInterface_IAMStreamConfig pin <? 0)%Z eqn:Hqi; simpl; [done|].
    destruct (GetNumberOfCapabilities pin <? 0)%Z eqn:Hn; simpl; [done|].
    apply Z.ltb_ge in Hqi, Hn.
    rewrite (proj2 (Z.leb_le _ _) Hqi), (proj2 (Z.leb_le _ _) Hn). simpl.
    destruct (internal_wcam_windows.for_each_capability (capabilities pin) acc)
      as [acc'|e] eqn:Hcaps; simpl; [|done].
    apply for_each_capability_agree in Hcaps. rewrite Hcaps. apply IH.
Qed.

Lemma get_video_parameters_agree (pCaptureFilter : IBaseFilter)
    (available_resolutions : list Resolution) :
  internal_wcam_windows.get_video_parameters pCaptureFilter = Returns available_resolutions →
  wcam_windows.get_video_parameters pCaptureFilter = available_resolutions.
Proof.
  unfold internal_wcam_windows.get_video_parameters, wcam_windows.get_video_parameters,
    THROW_IF_ERR, FAILED, SUCCEEDED.
  destruct (EnumPins pCaptureFilter <? 0)%Z eqn:Hhr; simpl; [done|].
  apply Z.ltb_ge in Hhr. rewrite (proj2 (Z.leb_le _ _) Hhr).
  apply while_next_pin_agree.
Qed.

(** X15: whenever [get_video_parameters] of src/internal/wcam_windows.cpp
    returns, [get_video_parameters] of src/wcam_windows.cpp returns the
    same list on the same answers: the two differ only where the former
    throws. *)
Theorem X15_get_video_parameters_agree (pCaptureFilter : IBaseFilter)
    (available_resolutions : list Resolution) :
  internal_wcam_windows.get_video_parameters pCaptureFilter = Returns available_resolutions →
  wcam_windows.get_video_parameters pCaptureFilter = available_resolutions.
Proof.
  unfold internal_wcam_windows.get_video_parameters, wcam_windows.get_video_parameters,
    THROW_IF_ERR.
  destruct (FAILED (EnumPins pCaptureFilter)) eqn:Hhr; simpl; [done|].
  unfold FAILED in Hhr. apply Z.ltb_ge in Hhr.
  unfold SUCCEEDED. rewrite (proj2 (Z.leb_le _ _) Hhr).
  apply while_next_pin_agree.
Qed.

Lemma X15_witness :
  let f := Scenario.filter_offering Scenario.Cam_A_caps in
  internal_wcam_windows.get_video_parameters f = Returns Scenario.Cam_A_caps
  ∧ wcam_windows.get_video_parameters f = Scenario.Cam_A_caps.
Proof.
  intros f.
  assert (internal_wcam_windows.get_video_parameters f = Returns Scenario.Cam_A_caps)
    as Hnew by reflexivity.
  split; [exact Hnew | exact (X15_get_video_parameters_agree f _ Hnew)].
Defined.

Lemma elem_of_for_each_capability caps acc r :
  r ∈ wcam_windows.for_each_capability caps acc
  ↔ r ∈ acc
    ∨ ∃ c, c ∈ caps ∧ SUCCEEDED (GetStreamCaps c) = true
           ∧ formattype_is_VideoInfo c = true ∧ r = resolution_of_caps c.
Proof.
  revert acc. induction caps as [|c caps IH]; intros acc; simpl.
  - split; [by left|]. intros [?|(c & Hin & _)]; [done|].
    by apply elem_of_nil in Hin.
  - destruct (SUCCEEDED (GetStreamCaps c) && formattype_is_VideoInfo c) eqn:Hc;
      rewrite IH.
    + apply andb_true_iff in Hc as [Hs Hv]. rewrite elem_of_app, list_elem_of_singleton.
      split.
      * intros [[? | ->] | (c' & Hin & ?)]; [by left| |].
        -- right. exists c. split; [left|done].
        -- right. exists c'. split; [by right|done].
      * intros [?|(c' & Hin & Hrest)]; [by left; left|].
        apply elem_of_cons in Hin as [->|Hin].
        -- left; right. by destruct Hrest as (_ & _ & ->).
        -- right. by exists c'.
    + split.
      * intros [?|(c' & Hin & ?)]; [by left|]. right. exists c'. split; [by right|done].
      * intros [?|(c' & Hin & Hs & Hv & Hr)]; [by left|].
        apply elem_of_cons in Hin as [->|Hin].
        -- by rewrite Hs, Hv in Hc.
        -- right. by exists c'.
Qed.

Lemma elem_of_while_next_pin ps acc r :
  r ∈ wcam_windows.while_next_pin ps acc
  ↔ r ∈ acc
    ∨ ∃ pin c, pin ∈ ps ∧ QueryDirection pin = PINDIR_OUTPUT
        ∧ SUCCEEDED (QueryInterface_IAMStreamConfig pin) = true
        ∧ SUCCEEDED (GetNumberOfCapabilities pin) = true
        ∧ c ∈ capabilities pin ∧ SUCCEEDED (GetStreamCaps c) = true
        ∧ formattype_is_VideoInfo c = true ∧ r = resolution_of_caps c.
Proof.
  revert acc. induction ps as [|pin ps IH]; intros acc; simpl.
  - split; [by left|]. intros [?|(pin & c & Hin & _)]; [done|].
    by apply elem_of_nil in Hin.
  - destruct (decide (QueryDirection pin = PINDIR_OUTPUT)) as [Hout|Hinput].
    + destruct (SUCCEEDED (QueryInterface_IAMStreamConfig pin)
                && SUCCEEDED (GetNumberOfCapabilities pin)) eqn:Hok; rewrite IH.
      * apply andb_true_iff in Hok as [Hqi Hn].
        rewrite elem_of_for_each_capability. split.
        -- intros [[?|(c & Hc & Hrest)]|(pin' & c & Hpin & Hrest)]; [by left| |].
           ++ right. exists pin, c. split; [left|]. by destruct Hrest as (? & ? & ?).
           ++ right. exists pin', c. split; [by right|done].
        -- intros [?|(pin' & c & Hpin & Hrest)]; [by left; left|].
           apply elem_of_cons in Hpin as [->|Hpin].
           ++ left; right. exists c. by destruct Hrest as (_ & _ & _ & ? & ? & ? & ?).
           ++ right. by exists pin', c.
      * split.
        -- intros [?|(pin' & c & Hpin & Hrest)]; [by left|].
           right. exists pin', c. split; [by right|done].
        -- intros [?|(pin' & c & Hpin & Hdir & Hqi & Hn & Hrest)]; [by left|].
           apply elem_of_cons in Hpin as [->|Hpin].
           ++ by rewrite Hqi, Hn in Hok.
           ++ right. by exists pin', c.
    + rewrite IH. split.
      * intros [?|(pin' & c & Hpin & Hrest)]; [by left|].
        right. exists pin', c. split; [by right|done].
      * intros [?|(pin' & c & Hpin & Hdir & Hrest)]; [by left|].
        apply elem_of_cons in Hpin as [->|Hpin]; [done|].
        right. by exists pin', c.
Qed.

(** X16: a resolution is reported by [get_video_parameters] of
    src/wcam_windows.cpp exactly when [EnumPins] succeeded and some output
    pin whose stream configuration could be queried has a capability of
    format [FORMAT_VideoInfo], successfully read, with these dimensions:
    input pins, other formats and failed calls contribute nothing. *)
Theorem X16_get_video_parameters_membership (pCaptureFilter : IBaseFilter)
    (r : Resolution) :
  r ∈ wcam_windows.get_video_parameters pCaptureFilter
  ↔ SUCCEEDED (EnumPins pCaptureFilter) = true
    ∧ ∃ pin c, pin ∈ pins pCaptureFilter ∧ QueryDirection pin = PINDIR_OUTPUT
        ∧ SUCCEEDED (QueryInterface_IAMStreamConfig pin) = true
        ∧ SUCCEEDED (GetNumberOfCapabilities pin) = true
        ∧ c ∈ capabilities pin ∧ SUCCEEDED (GetStreamCaps c) = true
        ∧ formattype_is_VideoInfo c = true ∧ r = resolution_of_caps c.
Proof.
  unfold wcam_windows.get_video_parameters.
  destruct (SUCCEEDED (EnumPins pCaptureFilter)).
  - rewrite elem_of_while_next_pin. split.
    + intros [Hnil|?]; [by apply elem_of_nil in Hnil | done].
    + intros [_ ?]. by right.
  - split; [by intros ?%elem_of_nil | by intros [? _]].
Qed.

Lemma for_each_capability_returns caps acc :
  (∃ rs, internal_wcam_windows.for_each_capability caps acc = Returns rs)
  ↔ Forall (λ c, FAILED (GetStreamCaps c) = false) caps.
Proof.
  revert acc. induction caps as [|c caps IH]; intros acc; simpl.
  - split; [constructor | by eexists].
  - rewrite Forall_cons. unfold THROW_IF_ERR.
    destruct (FAILED (GetStreamCaps c)); simpl.
    + split; [by intros [? ?] | by intros [? _]].
    + destruct (formattype_is_VideoInfo c); rewrite IH; tauto.
Qed.

Lemma while_next_pin_returns ps acc :
  (∃ rs, internal_wcam_windows.while_next_pin ps acc = Returns rs)
  ↔ Forall (λ pin, QueryDirection pin = PINDIR_OUTPUT →
                   FAILED (QueryInterface_IAMStreamConfig pin) = false
                   ∧ FAILED (GetNumberOfCapabilities pin) = false
                   ∧ Forall (λ c, FAILED (GetStreamCaps c) = false) (capabilities pin))
           ps.
Proof.
  revert acc. induction ps as [|pin ps IH]; intros acc; simpl.
  - split; [constructor | by eexists].
  - rewrite Forall_cons. case_decide as Hdir.
    + unfold THROW_IF_ERR.
      destruct (FAILED (QueryInterface_IAMStreamConfig pin)); simpl.
      { split; [by intros [? ?] | intros [H _]; by destruct (H Hdir)]. }
      destruct (FAILED (GetNumberOfCapabilities pin)); simpl.
      { split; [by intros [? ?] | intros [H _]; by destruct (H Hdir) as (_ & ? & _)]. }
      destruct (internal_wcam_windows.for_each_capability (capabilities pin) acc)
        as [acc'|e] eqn:Hcaps; simpl.
      * rewrite IH.
        assert (Forall (λ c, FAILED (GetStreamCaps c) = false) (capabilities pin))
          as Hall by (apply (for_each_capability_returns _ acc); by eexists).
        tauto.
      * split; [by intros [? ?]|]. intros [H _].
        destruct (H Hdir) as (_ & _ & Hall).
        apply (for_each_capability_returns _ acc) in Hall as [rs Hrs]. congruence.
    + rewrite IH. tauto.
Qed.

(** X17: [get_video_parameters] of src/internal/wcam_windows.cpp returns a
    list exactly when [EnumPins] does not fail and, on every output pin,
    neither the query for the stream configuration, nor the count of
    capabilities, nor the read of any capability (of whatever format)
    fails; what input pins answer does not matter. *)
Theorem X17_internal_get_video_parameters_returns (pCaptureFilter : IBaseFilter) :
  (∃ rs, internal_wcam_windows.get_video_parameters pCaptureFilter = Returns rs)
  ↔ FAILED (EnumPins pCaptureFilter) = false
    ∧ Forall (λ pin, QueryDirection pin = PINDIR_OUTPUT →
                     FAILED (QueryInterface_IAMStreamConfig pin) = false
                     ∧ FAILED (GetNumberOfCapabilities pin) = false
                     ∧ Forall (λ c, FAILED (GetStreamCaps c) = false) (capabilities pin))
             (pins pCaptureFilter).
Proof.
  unfold internal_wcam_windows.get_video_parameters, THROW_IF_ERR.
  destruct (FAILED (EnumPins pCaptureFilter)); simpl.
  - split; [by intros [? ?] | by intros [? _]].
  - rewrite while_next_pin_returns. tauto.
Qed.

(** ** Names and identities *)

(** X18: [find_webcam_id] returns exactly when [BindToStorage] does not
    fail and either [VariantClear] does not fail or neither property could
    be read; the identity is then made from the device path, from the
    friendly name when there is no path, and from ["Unnamed webcam"] when
    there is neither, so that all devices without path and name share one
    identity. *)
Theorem X18_find_webcam_id (pMoniker : IMoniker) :
  ((∃ webcam_id, internal_wcam_windows.find_webcam_id pMoniker = Returns webcam_id)
   ↔ FAILED (BindToStorage pMoniker) = false
     ∧ (FAILED (VariantClear pMoniker) = false
        ∨ (Read_DevicePath pMoniker = None ∧ Read_FriendlyName pMoniker = None)))
  ∧ ∀ webcam_id, internal_wcam_windows.find_webcam_id pMoniker = Returns webcam_id →
      webcam_id
      = make_device_id
          (default (default "Unnamed webcam"%string (Read_FriendlyName pMoniker))
                   (Read_DevicePath pMoniker)).
Proof.
  unfold internal_wcam_windows.find_webcam_id, internal_wcam_windows.find_webcam_name,
    THROW_IF_ERR.
  destruct (FAILED (BindToStorage pMoniker)); simpl.
  { split; [|done]. split; [by intros [? ?] | by intros [? _]]. }
  destruct (Read_DevicePath pMoniker) as [path|]; simpl.
  - destruct (FAILED (VariantClear pMoniker)); simpl.
    + split; [|done]. split; [by intros [? ?]|]. by intros [_ [?|[? _]]].
    + split; [|by intros ? [= <-]]. split; [by auto|by eexists].
  - destruct (Read_FriendlyName pMoniker) as [friendly|]; simpl.
    + destruct (FAILED (VariantClear pMoniker)); simpl.
      * split; [|done]. split; [by intros [? ?]|]. by intros [_ [?|[_ ?]]].
      * split; [|by intros ? [= <-]]. split; [by auto|by eexists].
    + split; [|by intros ? [= <-]]. split; [by auto|by eexists].
Qed.

Lemma get_devices_info_ids monikers cache infos :
  Forall (λ info, id info = make_device_id (name info)) infos →
  Forall (λ info, id info = make_device_id (name info))
         (wcam_windows.get_devices_info monikers cache infos).2.
Proof.
  revert cache infos.
  induction monikers as [|m monikers IH]; intros cache infos Hinfos; simpl; [done|].
  destruct (FAILED (BindToStorage m)); [by apply IH|].
  destruct (Read_FriendlyName m) as [webcam_name|]; [|by apply IH].
  destruct (wcam_windows.available_resolutions_of m webcam_name cache)
    as [cache1 [|r rs]]; [by apply IH|].
  apply IH, Forall_app. split; [done|]. by repeat constructor.
Qed.

(** X19: in the earlier back end the identity of every reported device is
    made from its friendly name, so two devices with the same name are
    reported under the same identity. *)
Theorem X19_wcam_windows_identity_is_the_name
    (env : SystemDeviceEnum) (tl : ThreadLocal) (out : list Info) (info1 info2 : Info) :
  (wcam_windows.grab_all_infos_impl env tl).2 = Returns out →
  info1 ∈ out → info2 ∈ out →
  id info1 = make_device_id (name info1)
  ∧ (name info1 = name info2 → id info1 = id info2).
Proof.
  unfold wcam_windows.grab_all_infos_impl.
  destruct (CoInitializeIFN env tl) as [tl1 [[]|e]]; simpl; [|done].
  destruct (SUCCEEDED _); simpl.
  2:{ intros [= <-] Hin. by apply elem_of_nil in Hin. }
  pose proof (get_devices_info_ids (default [] (video_input_devices env))
                (resolutions_cache tl1) [] (Forall_nil_2 _)) as Hids.
  destruct (wcam_windows.get_devices_info _ _ _) as [cache l]. simpl in *.
  intros [= <-] Hin1 Hin2.
  rewrite Forall_forall in Hids.
  rewrite (Hids info1 Hin1), (Hids info2 Hin2). split; [done|]. by intros ->.
Qed.

Lemma X19_witness :
  let env := Scenario.attached [Scenario.webcam "Cam" "path-1" Scenario.Cam_A_caps;
                                Scenario.webcam "Cam" "path-2" [mkResolution 320 240]] in
  let info := mkInfo "Cam" (make_device_id "Cam") Scenario.Cam_A_caps in
  (wcam_windows.grab_all_infos_impl env fresh_thread).2 = Returns [info; info]
  ∧ id info = make_device_id (name info).
Proof.
  intros env info.
  assert ((wcam_windows.grab_all_infos_impl env fresh_thread).2 = Returns [info; info])
    as Hout by reflexivity.
  split; [exact Hout|].
  refine (proj1 (X19_wcam_windows_identity_is_the_name
                   env fresh_thread [info; info] info info Hout _ _)); left.
Defined.

(** X20: within one enumeration, in both back ends, two reported devices
    with the same friendly name carry the same resolution list, the one
    cached under the name, even when they are different devices with
    different capabilities. *)
Theorem X20_same_name_same_resolutions
    (impl : SystemDeviceEnum → ThreadLocal → ThreadLocal * outcome (list Info))
    (env : SystemDeviceEnum) (tl : ThreadLocal) (out : list Info) (info1 info2 : Info) :
  impl = internal_wcam_windows.grab_all_infos_impl
  ∨ impl = wcam_windows.grab_all_infos_impl →
  (impl env tl).2 = Returns out →
  info1 ∈ out → info2 ∈ out → name info1 = name info2 →
  resolutions info1 = resolutions info2.
Proof.
  intros Himpl Hout Hin1 Hin2 Hname.
  assert (caching_backend impl) as Hcaching.
  { destruct Himpl as [-> | ->];
      [apply internal_caching_backend | apply wcam_windows_caching_backend]. }
  pose proof (proj2 (Hcaching env tl) out Hout) as Hcached.
  pose proof (Hcached info1 Hin1) as H1. pose proof (Hcached info2 Hin2) as H2.
  rewrite Hname in H1. congruence.
Qed.

Lemma X20_witness :
  let impl := internal_wcam_windows.grab_all_infos_impl in
  let env := Scenario.attached [Scenario.webcam "Cam" "path-1" Scenario.Cam_A_caps;
                                Scenario.webcam "Cam" "path-2" [mkResolution 320 240]] in
  let info1 := mkInfo "Cam" (make_device_id "path-1") Scenario.Cam_A_caps in
  let info2 := mkInfo "Cam" (make_device_id "path-2") Scenario.Cam_A_caps in
  (impl env fresh_thread).2 = Returns [info1; info2]
  ∧ resolutions info1 = resolutions info2.
Proof.
  intros impl env info1 info2.
  assert ((impl env fresh_thread).2 = Returns [info1; info2]) as Hout by reflexivity.
  split; [exact Hout|].
  refine (X20_same_name_same_resolutions impl env fresh_thread [info1; info2]
            info1 info2 (or_introl eq_refl) Hout _ _ eq_refl).
  - left.
  - right; left.
Defined.

(** ** The capture object *)

(** X21: [image()] hands an image out once: after any call the stored
    variant holds no image, so a second call, with no frame delivered in
    between, returns no image; a call on a variant that holds no image
    returns it as it is; and an error stays an error. *)
Theorem X21_image_is_consumed {Image : Type}
    (moved_from : CaptureError → CaptureError) (_image : CaptureImpl.MaybeImage Image) :
  let '(res, _image') := CaptureImpl.image moved_from _image in
  res = _image
  ∧ (∀ i, _image' ≠ CaptureImpl.holds_Image i)
  ∧ (∀ i, (CaptureImpl.image moved_from _image').1 ≠ CaptureImpl.holds_Image i)
  ∧ (∀ i, _image = CaptureImpl.holds_Image i →
       (CaptureImpl.image moved_from _image').1 = CaptureImpl.NoNewImageAvailableYet)
  ∧ (∀ e, _image = CaptureImpl.holds_image_error e →
       ∃ e', _image' = CaptureImpl.holds_image_error e').
Proof.
  destruct _image as [i| |e]; simpl; repeat split; try done.
  intros e0 _. by eexists.
Qed.

Lemma drain_events_spec queue disconnected :
  CaptureImpl.drain_events queue disconnected = true
  ↔ disconnected = true
    ∨ ∃ evCode, evCode ∈ queue
        ∧ (evCode = CaptureImpl.EC_DEVICE_LOST ∨ evCode = CaptureImpl.EC_ERRORABORT).
Proof.
  revert disconnected. induction queue as [|evCode queue IH]; intros disconnected; simpl.
  - split; [by left|]. intros [?|(ev & Hin & _)]; [done|]. by apply elem_of_nil in Hin.
  - rewrite IH. split.
    + intros [Hd|(ev & Hin & Hev)].
      * destruct (decide (evCode = CaptureImpl.EC_ERRORABORT)) as [He|_].
        { right. exists evCode. split; [left | by right]. }
        destruct (decide (evCode = CaptureImpl.EC_DEVICE_LOST)) as [Hl|_].
        { right. exists evCode. split; [left | by left]. }
        by left.
      * right. exists ev. split; [by right | done].
    + intros [->|(ev & Hin & Hev)].
      * left. by repeat case_decide.
      * apply elem_of_cons in Hin as [->|Hin]; [|right; by exists ev].
        left. destruct Hev as [-> | ->]; by repeat case_decide.
Qed.

(** X22: [is_disconnected] answers true exactly when one of the queued
    events is [EC_DEVICE_LOST] or [EC_ERRORABORT], and it empties the
    queue: asked again before a new event arrives, it answers false. *)
Theorem X22_is_disconnected (queue : list Z) :
  ((CaptureImpl.is_disconnected queue).1 = true
   ↔ ∃ evCode, evCode ∈ queue
       ∧ (evCode = CaptureImpl.EC_DEVICE_LOST ∨ evCode = CaptureImpl.EC_ERRORABORT))
  ∧ (CaptureImpl.is_disconnected queue).2 = []
  ∧ (CaptureImpl.is_disconnected (CaptureImpl.is_disconnected queue).2).1 = false.
Proof.
  unfold CaptureImpl.is_disconnected; simpl. split; [|done].
  rewrite drain_events_spec. split; [by intros [?|?] | by right].
Qed.

(** X23: [Release] undoes [AddRef] and [AddRef] undoes [Release], for every
    reference count a [LONG] can hold, wrap-around included; each returns
    the new count read as a [ULONG]; neither ever frees the object. *)
Theorem X23_AddRef_Release_round_trip (_ref_count : Z) :
  CaptureImpl.is_LONG _ref_count →
  (CaptureImpl.Release (CaptureImpl.AddRef _ref_count).2).2 = _ref_count
  ∧ (CaptureImpl.AddRef (CaptureImpl.Release _ref_count).2).2 = _ref_count
  ∧ CaptureImpl.is_LONG (CaptureImpl.AddRef _ref_count).2
  ∧ CaptureImpl.is_LONG (CaptureImpl.Release _ref_count).2
  ∧ (0 ≤ (CaptureImpl.AddRef _ref_count).1 < 4294967296)%Z
  ∧ ((CaptureImpl.AddRef _ref_count).1
     = if decide (-1 ≤ _ref_count < 2147483647)%Z then (_ref_count + 1)%Z
       else if decide (_ref_count = 2147483647)%Z then 2147483648%Z
       else (_ref_count + 4294967297)%Z).
Proof.
  unfold CaptureImpl.is_LONG, CaptureImpl.AddRef, CaptureImpl.Release,
    CaptureImpl.wrap_LONG, CaptureImpl.to_ULONG; simpl.
  intros Hrange.
  assert (∀ z, (-2147483648 ≤ z < 2147483648)%Z →
            ((z + 2147483648) mod 4294967296 - 2147483648 = z)%Z) as Hid.
  { intros z Hz. rewrite Z.mod_small; lia. }
  destruct (decide (_ref_count = 2147483647%Z)) as [->|Hmax];
    [vm_compute; repeat split; congruence|].
  destruct (decide (_ref_count = (-2147483648)%Z)) as [->|Hmin];
    [vm_compute; repeat split; congruence|].
  rewrite (Hid (_ref_count + 1)%Z), (Hid (_ref_count - 1)%Z) by lia.
  rewrite !Hid by lia.
  repeat split; try lia; try (apply Z.mod_pos_bound; lia).
  destruct (decide (-1 ≤ _ref_count < 2147483647)%Z) as [Hpos|Hneg].
  - rewrite Z.mod_small; lia.
  - replace (_ref_count + 1)%Z with (_ref_count + 4294967297 + -1 * 4294967296)%Z by lia.
    rewrite Z.mod_add by lia. rewrite Z.mod_small; lia.
Qed.

Lemma X23_witness :
  CaptureImpl.is_LONG 2147483647
  ∧ (CaptureImpl.AddRef 2147483647).2 = (-2147483648)%Z
  ∧ (CaptureImpl.Release (CaptureImpl.AddRef 2147483647).2).2 = 2147483647%Z.
Proof.
  assert (CaptureImpl.is_LONG 2147483647) as Hrange by (unfold CaptureImpl.is_LONG; lia).
  split; [exact Hrange|]. split; [reflexivity|].
  exact (proj1 (X23_AddRef_Release_round_trip 2147483647 Hrange)).
Defined.

(** X24: the constructor's search for the moniker of a device stops at the
    first moniker whose identity is the requested one: every moniker before
    it has another identity; and the search throws, whatever the state of
    the requested device, as soon as the identity of a moniker enumerated
    before it cannot be computed. *)
Theorem X24_select_moniker (device_id : DeviceId) (monikers : list IMoniker) :
  (∀ pMoniker, CaptureImpl.select_moniker device_id monikers = Returns (Some pMoniker) →
     ∃ before after, monikers = before ++ pMoniker :: after
       ∧ internal_wcam_windows.find_webcam_id pMoniker = Returns device_id
       ∧ Forall (λ m, ∃ other, internal_wcam_windows.find_webcam_id m = Returns other
                               ∧ other ≠ device_id) before)
  ∧ (CaptureImpl.select_moniker device_id monikers = Returns None →
     Forall (λ m, ∃ other, internal_wcam_windows.find_webcam_id m = Returns other
                           ∧ other ≠ device_id) monikers)
  ∧ (∀ before broken after e,
       monikers = before ++ broken :: after →
       Forall (λ m, ∃ other, internal_wcam_windows.find_webcam_id m = Returns other
                             ∧ other ≠ device_id) before →
       internal_wcam_windows.find_webcam_id broken = Throws e →
       CaptureImpl.select_moniker device_id monikers = Throws e).
Proof.
  split; [|split].
  - induction monikers as [|m monikers IH]; intros pMoniker; simpl; [done|].
    destruct (internal_wcam_windows.find_webcam_id m) as [webcam_id|e] eqn:Hid;
      simpl; [|done].
    case_decide as Hmatch.
    + intros [= <-]. exists [], monikers. subst webcam_id. by repeat split.
    + intros (before & after & -> & Hfound & Hbefore)%IH.
      exists (m :: before), after. repeat split; [done|].
      constructor; [by exists webcam_id | done].
  - induction monikers as [|m monikers IH]; simpl; [constructor|].
    destruct (internal_wcam_windows.find_webcam_id m) as [webcam_id|e] eqn:Hid;
      simpl; [|done].
    case_decide as Hmatch; [done|].
    intros Hnone. constructor; [by exists webcam_id | by apply IH].
  - intros before broken after e -> Hbefore Hbroken.
    induction Hbefore as [|m before (other & Hother & Hne) _ IH]; simpl.
    + by rewrite Hbroken.
    + rewrite Hother. simpl. by rewrite decide_False.
Qed.

Lemma X24_witness :
  let broken :=
    mkMoniker E_FAIL (Some "Cam-A"%string) (Some "Cam-A"%string) S_OK S_OK
              (Scenario.filter_offering []) in
  let healthy := Scenario.webcam "Cam-B" "Cam-B" Scenario.Cam_A_caps in
  CaptureImpl.select_moniker Scenario.Cam_B [healthy; broken] = Returns (Some healthy)
  ∧ CaptureImpl.select_moniker Scenario.Cam_B [broken; healthy]
    = Throws (std_runtime_error E_FAIL "BindToStorage").
Proof.
  intros broken healthy. split; [reflexivity|].
  apply (proj2 (proj2 (X24_select_moniker Scenario.Cam_B [broken; healthy]))
           [] broken [healthy]); [reflexivity | constructor | reflexivity].
Defined.

(** ** The two back ends side by side *)

Lemma FAILED_SUCCEEDED hr : FAILED hr = false ↔ SUCCEEDED hr = true.
Proof. unfold FAILED, SUCCEEDED. rewrite Z.ltb_ge, Z.leb_le. done. Qed.

Lemma available_resolutions_of_agree m webcam_name cache cache' rs :
  internal_wcam_windows.available_resolutions_of m webcam_name cache = (cache', Returns rs) →
  wcam_windows.available_resolutions_of m webcam_name cache = (cache', rs).
Proof.
  unfold internal_wcam_windows.available_resolutions_of,
    wcam_windows.available_resolutions_of.
  destruct (cache !! webcam_name) as [cached|]; [by intros [= <- <-]|].
  unfold THROW_IF_ERR.
  destruct (FAILED (BindToObject m)) eqn:Hbind; simpl; [done|].
  apply FAILED_SUCCEEDED in Hbind. rewrite Hbind.
  destruct (internal_wcam_windows.get_video_parameters (capture_filter m))
    as [rs'|e] eqn:Hgvp; [|done].
  apply get_video_parameters_agree in Hgvp.
  intros [= <- <-]. by rewrite Hgvp.
Qed.

Lemma while_next_moniker_agree monikers cache infos cache' out :
  Forall has_FriendlyName monikers →
  internal_wcam_windows.while_next_moniker monikers cache infos = (cache', Returns out) →
  wcam_windows.get_devices_info monikers cache (identified_by_name <$> infos)
  = (cache', identified_by_name <$> out).
Proof.
  intros Hnamed. revert cache infos.
  induction Hnamed as [|m monikers (friendly & Hfriendly & _) _ IH];
    intros cache infos; simpl.
  - by intros [= <- <-].
  - unfold internal_wcam_windows.find_webcam_name, THROW_IF_ERR.
    rewrite Hfriendly.
    destruct (FAILED (BindToStorage m)); simpl; [done|].
    destruct (FAILED (VariantClear m)); simpl; [done|].
    destruct (internal_wcam_windows.available_resolutions_of m friendly cache)
      as [cache1 [rs|e]] eqn:Hav; [|done].
    apply available_resolutions_of_agree in Hav. rewrite Hav.
    destruct rs as [|r rs]; [apply IH|].
    destruct (internal_wcam_windows.find_webcam_id m) as [webcam_id|e]; [|done].
    intros Hloop%IH. by rewrite fmap_app in Hloop.
Qed.

(** X25: on devices whose friendly name is read successfully and is not
    empty, and unless [CreateClassEnumerator] answers [S_FALSE] together
    with an enumerator,
    an enumeration of src/internal/wcam_windows.cpp that returns is matched
    by the one of src/wcam_windows.cpp: the same devices in the same order
    with the same names and resolution lists, identified by name instead of
    by path, and the same thread-local state afterwards. *)
Theorem X25_back_ends_agree_where_the_later_one_returns
    (env : SystemDeviceEnum) (tl tl' : ThreadLocal) (out : list Info) :
  Forall has_FriendlyName (default [] (video_input_devices env)) →
  (is_Some (video_input_devices env) → CreateClassEnumerator env ≠ S_FALSE) →
  internal_wcam_windows.grab_all_infos_impl env tl = (tl', Returns out) →
  wcam_windows.grab_all_infos_impl env tl = (tl', Returns (identified_by_name <$> out)).
Proof.
  intros Hnamed Henum.
  unfold internal_wcam_windows.grab_all_infos_impl, wcam_windows.grab_all_infos_impl,
    wcam_windows.enumerate_devices.
  destruct (CoInitializeIFN env tl) as [tl1 [[]|e]]; [|done].
  unfold THROW_IF_ERR.
  destruct (FAILED (CoCreateInstance env)) eqn:Hco; simpl; [done|].
  destruct (FAILED (CreateClassEnumerator env)) eqn:Hcreate; simpl; [done|].
  apply FAILED_SUCCEEDED in Hco, Hcreate. rewrite Hco.
  destruct (video_input_devices env) as [monikers|]; simpl in *.
  - rewrite decide_False by (apply Henum; by eexists). rewrite Hcreate.
    destruct (internal_wcam_windows.while_next_moniker monikers (resolutions_cache tl1) [])
      as [cache result] eqn:Hloop.
    intros [= <- ->].
    pose proof (while_next_moniker_agree monikers _ [] cache out Hnamed Hloop) as Hold.
    change (identified_by_name <$> []) with (@nil Info) in Hold.
    by rewrite Hold.
  - intros [= <- <-]. destruct tl1 as [initialized cache]; simpl.
    case_decide; [done|]. by rewrite Hcreate.
Qed.

Lemma X25_witness :
  let env := Scenario.attached [Scenario.webcam "Cam-A" "path-A" Scenario.Cam_A_caps;
                                Scenario.webcam "Cam-B" "path-B" []] in
  let out := [mkInfo "Cam-A" (make_device_id "path-A") Scenario.Cam_A_caps] in
  let tl' := (internal_wcam_windows.grab_all_infos_impl env fresh_thread).1 in
  internal_wcam_windows.grab_all_infos_impl env fresh_thread = (tl', Returns out)
  ∧ wcam_windows.grab_all_infos_impl env fresh_thread
    = (tl', Returns [mkInfo "Cam-A" (make_device_id "Cam-A") Scenario.Cam_A_caps]).
Proof.
  intros env out tl'.
  assert (internal_wcam_windows.grab_all_infos_impl env fresh_thread = (tl', Returns out))
    as Hnew by reflexivity.
  split; [exact Hnew|].
  apply (X25_back_ends_agree_where_the_later_one_returns env fresh_thread tl' out).
  - repeat constructor; eexists; (split; [reflexivity | discriminate]).
  - intros _. discriminate.
  - exact Hnew.
Defined.

(** ** Opening without a stored preference *)

Lemma find_info_sort_infos_Some device raw reported :
  find_info device raw = Some reported →
  find_info device (sort_infos raw)
  = Some (mkInfo (name reported) (id reported)
                 (sort_and_deduplicate (resolutions reported))).
Proof.
  unfold find_info, sort_infos.
  induction raw as [|info raw IH]; simpl; [done|].
  case_bool_decide; [by intros [= ->] | done].
Qed.

(** The first entry left by [std::sort] is not ordered after any entry,
    whatever the algorithm. *)
Lemma std_sort_spec_head_best rs l' best rest :
  std_sort_spec res_before rs l' → std_unique l' = best :: rest →
  best ∈ rs ∧ ∀ r, r ∈ rs → res_before r best = false.
Proof.
  intros [Hperm Hsorted] Hunique.
  apply (Sorted_StronglySorted res_not_after) in Hsorted.
  pose proof (head_std_unique l') as Hhead. rewrite Hunique in Hhead. simpl in Hhead.
  destruct l' as [|x l']; [done|]. injection Hhead as ->.
  split; [rewrite <-Hperm; left|].
  intros r Hr. rewrite <-Hperm in Hr.
  apply StronglySorted_inv in Hsorted as [_ Hall].
  apply elem_of_cons in Hr as [->|Hr].
  - destruct (res_before x x) eqn:E; [|done].
    by rewrite (res_before_asym _ _ E) in E.
  - by eapply Forall_forall in Hall.
Qed.

(** When that first entry has a non-zero width, it is the same for every
    algorithm: the first entry of [sort_and_deduplicate]. *)
Lemma std_sort_spec_head_unique rs l' best rest :
  std_sort_spec res_before rs l' → std_unique l' = best :: rest →
  width best ≠ 0%N →
  ∃ rest', sort_and_deduplicate rs = best :: rest'.
Proof.
  intros Hspec Hunique Hwidth.
  destruct (std_sort_spec_head_best rs l' best rest Hspec Hunique) as [Hin Hbest].
  destruct (sort_and_deduplicate rs) as [|best' rest'] eqn:Hmodel.
  { apply elem_of_sort_and_deduplicate in Hin. rewrite Hmodel in Hin.
    by apply elem_of_nil in Hin. }
  assert (best' ∈ rs) as Hin'.
  { apply elem_of_sort_and_deduplicate. rewrite Hmodel. left. }
  pose proof (sort_and_deduplicate_head_best rs best' rest' Hmodel best Hin) as H1.
  pose proof (Hbest best' Hin') as H2.
  exists rest'. f_equal.
  assert (width best' ≠ 0%N).
  { fold (res_not_after best' best) in H1. fold (res_not_after best best') in H2.
    rewrite res_not_after_spec in H1, H2. lia. }
  by apply res_not_after_antisym.
Qed.

(** X26: a session that holds no capture, for a device without a stored
    preference, is opened by the poll cycle at the first entry of the
    sorted list of the device's first entry in the enumeration, a
    resolution that none of the reported ones is ordered before.  The
    first entry is taken from any outcome [std::sort] may produce, and is
    required to have a non-zero width: then it does not depend on the
    order in which the sort leaves equivalent entries. *)
Theorem X26_unset_preference_opens_at_the_best_resolution
    (raw : list Info) (open : DeviceId → Resolution → outcome Capture)
    (rm : ResolutionsManager) (self : Manager) (h : Heap) (p : nat) (b : ControlBlock)
    (reported : Info) (l' : list Resolution) (best : Resolution) (rest : list Resolution) :
  registry_ok self h →
  throws_only_CaptureException open →
  blocks h !! p = Some b →
  holds_alternative_Capture (maybe_capture (object b)) = false →
  _selected_resolutions rm !! request_id (object b) = None →
  find_info (request_id (object b)) raw = Some reported →
  std_sort_spec res_before (resolutions reported) l' →
  std_unique l' = best :: rest →
  width best ≠ 0%N →
  (∃ h', update (Returns raw) open rm self h
         = (mkManager (sort_infos raw) (_current_requests self), h', Returns tt)
     ∧ session_state h' p
       = Some match open (request_id (object b)) best with
              | Returns capture => holds_Capture capture
              | Throws (CaptureException error) => holds_CaptureError error
              | Throws (std_runtime_error _ _) => maybe_capture (object b)
              end)
  ∧ ∀ r, r ∈ resolutions reported → res_before r best = false.
Proof.
  intros Hok Hcontained Hb Hstate Hunset Hfound Hspec Hunique Hwidth.
  destruct (std_sort_spec_head_unique _ _ _ _ Hspec Hunique Hwidth) as [rest' Hsorted].
  split; [|by apply (sort_and_deduplicate_head_best _ _ rest')].
  destruct (update_session raw open rm self h p b Hok Hcontained Hb)
    as (h' & Hupd & _ & _ & Hb').
  exists h'. split; [done|].
  unfold session_state, lock. rewrite Hb'. simpl. f_equal.
  pose proof (find_info_sort_infos_Some _ _ _ Hfound) as Hfound'.
  rewrite polled_state_retry; [|by unfold is_plugged_in; simpl; rewrite Hfound'|done].
  unfold selected_resolution, default_resolution. simpl.
  by rewrite Hunset, Hfound', Hsorted.
Qed.

Lemma X26_witness :
  let device := Scenario.Cam_A in
  let reported := mkInfo "Cam-A" device Scenario.Cam_A_caps in
  let w := run [call_open_or_get_webcam device] initial_world in
  let b := mkControlBlock (mkWebcamRequest device CaptureNotInitYet) 1 in
  blocks (heap w) !! 0 = Some b
  ∧ ∃ h', update (Returns [reported]) Scenario.always_opens
                 (resolutions_manager w) (manager w) (heap w)
          = (mkManager (sort_infos [reported]) (_current_requests (manager w)), h',
             Returns tt)
      ∧ session_state h' 0 = Some (holds_Capture (mkCapture (mkResolution 1280 720))).
Proof.
  intros device reported w b.
  assert (blocks (heap w) !! 0 = Some b) as Hb by (vm_compute; reflexivity).
  split; [exact Hb|].
  refine (proj1 (X26_unset_preference_opens_at_the_best_resolution
                   [reported] Scenario.always_opens (resolutions_manager w)
                   (manager w) (heap w) 0 b reported
                   (std_sort res_before Scenario.Cam_A_caps)
                   (mkResolution 1280 720) [mkResolution 640 480]
                   _ always_opens_contained Hb eq_refl _ eq_refl
                   (std_sort_meets_spec res_before res_before_asym Scenario.Cam_A_caps)
                   eq_refl _)).
  - apply (run_registry_ok _ initial_world initial_world_ok).
  - vm_compute. reflexivity.
  - discriminate.
Defined.
